(** * Route finder: edge lookup, distance total, turn directions and A* search

    A shallow embedding of [A_star_algorithm.py].

    - Python floats are read as exact numbers: edge lengths, accumulated
      costs and heuristic values as rationals ([Q], so that the search
      computes), node coordinates, bearings and bearing differences as
      reals ([R], so that [math.sin], [math.cos] and [math.atan2] have their
      mathematical meaning).  Rounding is outside the model.
    - Python exceptions are values of [Exn] carried by [Result].
    - The MultiDiGraph is the list of its nodes and the list of its edges in
      insertion order; the dict views the program reads ([G.nodes[n]],
      [G.get_edge_data(u, v)]) are computed from these lists and keep
      insertion order, as Python dicts do. *)

From Stdlib Require Import List ZArith QArith Reals Psatz Ascii String Bool Arith.
Import ListNotations.

Close Scope Q_scope.
Close Scope R_scope.

(** ** Exceptions *)

Inductive Exn : Type :=
| KeyError        (* G.nodes[n] on an unknown node, d[k] on a missing key *)
| IndexError      (* list(...)[0] on an empty list, path[i] out of range *)
| InvalidNode     (* source or destination absent from the graph *)
| NoRouteFound.   (* frontier exhausted before the destination was reached *)

Inductive Result (A : Type) : Type :=
| Ok (a : A)
| Raise (e : Exn).

Arguments Ok {A} a.
Arguments Raise {A} e.

Definition bind {A B : Type} (m : Result A) (k : A -> Result B) : Result B :=
  match m with
  | Ok a => k a
  | Raise e => Raise e
  end.

Notation "x <- m ;; k" := (bind m (fun x => k))
  (at level 61, m at next level, right associativity).

Fixpoint mapM {A B : Type} (f : A -> Result B) (l : list A) : Result (list B) :=
  match l with
  | [] => Ok []
  | a :: l' => b <- f a ;; bs <- mapM f l' ;; Ok (b :: bs)
  end.

(** ** The road graph as the program reads it *)

Definition Node := Z.
Bind Scope Z_scope with Node.

(** [G.nodes[n]]: the two keys the program reads, in degrees. *)
Record NodeData : Type := { node_y : R; node_x : R }.

(** An edge attribute dict, restricted to the keys the program reads;
    either key may be missing. *)
Record EdgeAttrs : Type := { attr_length : option Q; attr_name : option string }.

Record EdgeRec : Type :=
  { e_from : Node; e_to : Node; e_key : Z; e_attrs : EdgeAttrs }.

Record Graph : Type :=
  { nodes : list (Node * NodeData); edges : list EdgeRec }.

Definition joins (u v : Node) (e : EdgeRec) : bool :=
  (e_from e =? u)%Z && (e_to e =? v)%Z.

(** [G.get_edge_data(u, v)]: the dict key -> attributes of the edges from
    [u] to [v], in insertion order, or [None] when there is none. *)
Definition get_edge_data (G : Graph) (u v : Node) : option (list (Z * EdgeAttrs)) :=
  match filter (joins u v) (edges G) with
  | [] => None
  | es => Some (map (fun e => (e_key e, e_attrs e)) es)
  end.

(** [list(d.keys())[0]] *)
Definition first_key (d : list (Z * EdgeAttrs)) : Result Z :=
  match map fst d with
  | k :: _ => Ok k
  | [] => Raise IndexError
  end.

(** [d[k]] *)
Fixpoint dict_get (d : list (Z * EdgeAttrs)) (k : Z) : Result EdgeAttrs :=
  match d with
  | [] => Raise KeyError
  | (k', a) :: d' => if (k' =? k)%Z then Ok a else dict_get d' k
  end.

(** [G.nodes[n]] *)
Fixpoint node_lookup (ns : list (Node * NodeData)) (n : Node) : Result NodeData :=
  match ns with
  | [] => Raise KeyError
  | (m, d) :: ns' => if (m =? n)%Z then Ok d else node_lookup ns' n
  end.

Definition has_node (G : Graph) (n : Node) : bool :=
  existsb (fun p => (fst p =? n)%Z) (nodes G).

(** [a.get(key, default)] *)
Definition get_or {A : Type} (o : option A) (default : A) : A :=
  match o with
  | Some a => a
  | None => default
  end.

(** ** [get_edge_length] and the distance total (lines 56-63) *)

Definition get_edge_length (G : Graph) (u v : Node) : Result Q :=
  match get_edge_data G u v with
  | Some edge_data =>
      k <- first_key edge_data ;;
      a <- dict_get edge_data k ;;
      Ok (get_or (attr_length a) 0%Q)
  | None => Ok 0%Q
  end.

(** [zip(path[:-1], path[1:])] *)
Definition hops (path : list Node) : list (Node * Node) :=
  combine (removelast path) (tl path).

(** Python's [sum]: a left fold from 0. *)
Definition py_sum (l : list Q) : Q := fold_left Qplus l 0%Q.

Definition total_dist (G : Graph) (path : list Node) : Result Q :=
  ls <- mapM (fun uv => get_edge_length G (fst uv) (snd uv)) (hops path) ;;
  Ok (py_sum ls).

(** ** Bearings (lines 82-89) *)

Definition radians (d : R) : R := (d * PI / 180)%R.
Definition degrees (r : R) : R := (r * 180 / PI)%R.

(** [math.atan2(a, b)]: the angle of the point with abscissa [b] and
    ordinate [a], in (-PI, PI], and 0 at the origin. *)
Definition atan2 (a b : R) : R :=
  if Rlt_dec 0 b then atan (a / b)
  else if Rlt_dec b 0 then
         (if Rle_dec 0 a then atan (a / b) + PI else atan (a / b) - PI)%R
  else if Rlt_dec 0 a then (PI / 2)%R
  else if Rlt_dec a 0 then (- PI / 2)%R
  else 0%R.

(** [a % m] on floats, for a positive [m]. *)
Definition fmod (a m : R) : R := (a - m * IZR (Zfloor (a / m)))%R.

Definition bearing (a b : NodeData) : R :=
  let lat1 := radians (node_y a) in
  let lon1 := radians (node_x a) in
  let lat2 := radians (node_y b) in
  let lon2 := radians (node_x b) in
  let dlon := (lon2 - lon1)%R in
  let x := (sin dlon * cos lat2)%R in
  let y := (cos lat1 * sin lat2 - sin lat1 * cos lat2 * cos dlon)%R in
  let brng := atan2 x y in
  fmod (degrees brng + 360) 360.

(** ** Step-by-step directions (lines 67-103) *)

Inductive Instruction : Type := Start | Straight | TurnRight | TurnBack | TurnLeft.

(** One printed line: the turn, the street and the length. *)
Record Step : Type :=
  { instruction : Instruction; street_name : string; length_meters : Q }.

(** The [if]/[elif] chain of lines 93-100. *)
Definition classify_turn (diff : R) : Instruction :=
  if Rlt_dec diff 45 then Straight
  else if Rgt_dec diff 315 then Straight
  else if Rlt_dec diff 135 then TurnRight
  else if Rlt_dec diff 225 then TurnBack
  else TurnLeft.

Definition bearing_diff (prev_bearing next_bearing : R) : R :=
  fmod (next_bearing - prev_bearing + 360) 360.

(** [path[i]] *)
Definition path_at (path : list Node) (i : nat) : Result Node :=
  match nth_error path i with
  | Some n => Ok n
  | None => Raise IndexError
  end.

Definition no_attrs : EdgeAttrs := {| attr_length := None; attr_name := None |}.

(** The edge the loop body reads for the hop [(u, v)] (lines 68-73). *)
Definition hop_edge (G : Graph) (u v : Node) : Result EdgeAttrs :=
  match get_edge_data G u v with
  | Some edge_data => k <- first_key edge_data ;; dict_get edge_data k
  | None => Ok no_attrs
  end.

(** The turn of the [i]-th hop, [i] counted from 1 (lines 76-102). *)
Definition hop_turn (G : Graph) (path : list Node) (i : nat) (u v : Node)
  : Result Instruction :=
  if (1 <? i)%nat then
    p <- path_at path (i - 1) ;;
    prev <- node_lookup (nodes G) p ;;
    curr <- node_lookup (nodes G) u ;;
    next_ <- node_lookup (nodes G) v ;;
    let prev_bearing := bearing prev curr in
    let next_bearing := bearing curr next_ in
    Ok (classify_turn (bearing_diff prev_bearing next_bearing))
  else Ok Start.

Definition unnamed_road : string := "Unnamed Road".

Definition direction (G : Graph) (path : list Node) (iuv : nat * (Node * Node))
  : Result Step :=
  let '(i, (u, v)) := iuv in
  edge <- hop_edge G u v ;;
  let street := get_or (attr_name edge) unnamed_road in
  let length := get_or (attr_length edge) 0%Q in
  turn <- hop_turn G path i u v ;;
  Ok {| instruction := turn; street_name := street; length_meters := length |}.

(** [enumerate(l, 1)] *)
Definition enumerate1 {A : Type} (l : list A) : list (nat * A) :=
  combine (seq 1 (List.length l)) l.

Definition directions (G : Graph) (path : list Node) : Result (list Step) :=
  mapM (direction G path) (enumerate1 (hops path)).

(** ** The path search (line 54)

    The program obtains the path from a library call,
    [nx.astar_path(G, src, dst, heuristic, weight='length')], whose code is
    not part of the repository.  The search below is written from the
    specification's description of it (section 4.3), over the same graph. *)

Definition Qltb (a b : Q) : bool := negb (Qle_bool b a).

(** Modelled from the spec: the [length_meters] of an edge; the library's
    view of an edge is missing, so the length is read as the program reads
    it, a missing attribute counting as 0. *)
Definition edge_len (e : EdgeRec) : Q := get_or (attr_length (e_attrs e)) 0%Q.

(** Modelled from the spec: [neighbors(node)], all outgoing edges of the
    node, empty when there is none or the node does not exist (RoadGraph's
    neighbour lookup is missing from the sources). *)
Definition neighbors (G : Graph) (n : Node) : list EdgeRec :=
  filter (fun e => (e_from e =? n)%Z) (edges G).

(** Modelled from the spec: the pick among parallel edges, lowest length,
    ties broken by first-seen order (helper of [edge_between], missing from
    the sources). *)
Fixpoint cheapest (best : EdgeRec) (es : list EdgeRec) : EdgeRec :=
  match es with
  | [] => best
  | e :: es' =>
      if Qltb (edge_len e) (edge_len best) then cheapest e es' else cheapest best es'
  end.

(** Modelled from the spec: [edge_between(u, v)], the cheapest edge from
    [u] to [v] if any exists, else none (missing from the sources). *)
Definition edge_between (G : Graph) (u v : Node) : option EdgeRec :=
  match filter (joins u v) (edges G) with
  | [] => None
  | e :: es => Some (cheapest e es)
  end.

(** Modelled from the spec: PathResult, the ordered node path and the
    finalized accumulated cost of its last node. *)
Record PathResult : Type :=
  { path_nodes : list Node; total_distance_meters : Q }.

(** Modelled from the spec: the state of the search, the best known [g] per
    node, the recorded predecessor links, and the frontier in insertion
    order. *)
Record Search : Type :=
  { best_g : Node -> option Q;
    predecessor : Node -> option Node;
    frontier : list Node }.

Definition update {A : Type} (m : Node -> option A) (k : Node) (a : A)
  : Node -> option A :=
  fun n => if (n =? k)%Z then Some a else m n.

Definition no_entry {A : Type} : Node -> option A := fun _ => None.

Definition drop (n : Node) (l : list Node) : list Node :=
  filter (fun m : Node => negb (m =? n)%Z) l.

Section PathFinder.

(** [h(n)]: the geodesic distance from [n] to the destination, computed
    by a geometry library; any function of the two node ids here. *)
Variable heuristic : Node -> Node -> Q.
Variable G : Graph.
Variable destination : Node.

(** Modelled from the spec: the recorded [g] of a node of the frontier. *)
Definition known_g (st : Search) (n : Node) : Q := get_or (best_g st n) 0%Q.

(** Modelled from the spec: the frontier key of a node, [f = g + h], then
    [h] (the frontier of the library call is missing from the sources). *)
Definition f_key (st : Search) (n : Node) : Q * Q :=
  let h := heuristic n destination in ((known_g st n + h)%Q, h).

(** Modelled from the spec: strictly before, in the order lowest [f],
    then lowest [h]. *)
Definition before (a b : Q * Q) : bool :=
  Qltb (fst a) (fst b) || (Qeq_bool (fst a) (fst b) && Qltb (snd a) (snd b)).

(** Modelled from the spec: the frontier entry with lowest [f], ties by
    lowest [h], then by insertion order: a later entry replaces the pick
    only when strictly before it. *)
Fixpoint lowest (st : Search) (best : Node) (rest : list Node) : Node :=
  match rest with
  | [] => best
  | n :: rest' =>
      if before (f_key st n) (f_key st best)
      then lowest st n rest' else lowest st best rest'
  end.

(** Modelled from the spec: popping the lowest entry off the frontier. *)
Definition pop (st : Search) : option (Node * list Node) :=
  match frontier st with
  | [] => None
  | n :: rest => let m := lowest st n rest in Some (m, drop m (frontier st))
  end.

(** Modelled from the spec: a candidate improves the best known [g] when
    none is known yet or when it is strictly smaller. *)
Definition improves (candidate : Q) (known : option Q) : bool :=
  match known with
  | None => true
  | Some g => Qltb candidate g
  end.

(** Modelled from the spec: relaxing one outgoing edge of the popped
    node: when [g(current) + length] improves the best known [g] of the
    target, record it, set the predecessor, and (re)insert the target
    into the frontier. *)
Definition relax (current : Node) (g_current : Q) (st : Search) (e : EdgeRec)
  : Search :=
  let target := e_to e in
  let candidate := (g_current + edge_len e)%Q in
  if improves candidate (best_g st target)
  then {| best_g := update (best_g st) target candidate;
          predecessor := update (predecessor st) target current;
          frontier := drop target (frontier st) ++ [target] |}
  else st.

(** Modelled from the spec: following the recorded predecessor links
    from a node back to the source, the path built in source-first
    order. *)
Fixpoint walk_back (fuel : nat) (source : Node) (st : Search) (n : Node)
  (acc : list Node) : option (list Node) :=
  match fuel with
  | O => None
  | S fuel' =>
      if (n =? source)%Z then Some (n :: acc)
      else match predecessor st n with
           | Some p => walk_back fuel' source st p (n :: acc)
           | None => Some (n :: acc)
           end
  end.

(** Modelled from the spec: the search loop; the fuel bounds the frontier
    pops and the predecessor links followed, and the result is [None]
    when it runs out before the loop ends. *)
Fixpoint search (fuel : nat) (source : Node) (st : Search)
  : option (Result PathResult) :=
  match fuel with
  | O => None
  | S fuel' =>
      match pop st with
      | None => Some (Raise NoRouteFound)
      | Some (current, rest) =>
          if (current =? destination)%Z then
            match walk_back fuel' source st current [] with
            | Some p =>
                Some (Ok {| path_nodes := p;
                            total_distance_meters := known_g st current |})
            | None => None
            end
          else
            let st' := {| best_g := best_g st;
                          predecessor := predecessor st;
                          frontier := rest |} in
            search fuel' source
              (fold_left (relax current (known_g st current)) (neighbors G current) st')
      end
  end.

(** Modelled from the spec: the first state, the frontier holding the
    source with [g = 0]. *)
Definition start (source : Node) : Search :=
  {| best_g := update no_entry source 0%Q;
     predecessor := no_entry;
     frontier := [source] |}.

End PathFinder.

(** Modelled from the spec: [find_path(graph, source, destination)];
    InvalidNode is raised before the search begins. *)
Definition find_path (heuristic : Node -> Node -> Q) (fuel : nat) (G : Graph)
  (source destination : Node) : option (Result PathResult) :=
  if has_node G source && has_node G destination
  then search heuristic G destination fuel source (start source)
  else Some (Raise InvalidNode).

(** ** The route the program reports (lines 54-103) *)

Record Route : Type :=
  { route_path : list Node; route_total : Q; route_steps : list Step }.

Definition route (heuristic : Node -> Node -> Q) (fuel : nat) (G : Graph)
  (src_node dst_node : Node) : option (Result Route) :=
  match find_path heuristic fuel G src_node dst_node with
  | None => None
  | Some found =>
      Some (r <- found ;;
            let path := path_nodes r in
            total <- total_dist G path ;;
            steps <- directions G path ;;
            Ok {| route_path := path; route_total := total; route_steps := steps |})
  end.

(** ** Walks, node sequences and their weights *)

(** A walk of the graph from [u]: the edges taken, in order, and the node
    reached. *)
Inductive walk (G : Graph) (u : Node) : list EdgeRec -> Node -> Prop :=
| walk_nil : walk G u [] u
| walk_snoc (es : list EdgeRec) (x : Node) (e : EdgeRec) :
    walk G u es x -> In e (edges G) -> e_from e = x ->
    walk G u (es ++ [e]) (e_to e).

Definition weight (es : list EdgeRec) : Q := py_sum (map edge_len es).

Definition reachable (G : Graph) (u v : Node) : Prop := exists es, walk G u es v.

(** The cost of going from [u] to [v] in a node sequence: the length of the
    cheapest edge between them. *)
Definition hop_cost (G : Graph) (uv : Node * Node) : Q :=
  match edge_between G (fst uv) (snd uv) with
  | Some e => edge_len e
  | None => 0%Q
  end.

Definition seq_weight (G : Graph) (p : list Node) : Q :=
  py_sum (map (hop_cost G) (hops p)).

(** A valid directed node sequence from [u] to [v]: it starts at [u], ends
    at [v], and every two consecutive nodes are joined by an edge. *)
Definition valid_sequence (G : Graph) (u v : Node) (p : list Node) : Prop :=
  hd_error p = Some u /\ last p u = v /\
  forall a b, In (a, b) (hops p) -> edge_between G a b <> None.

Definition nonneg_lengths (G : Graph) : Prop :=
  forall e, In e (edges G) -> (0 <= edge_len e)%Q.

(** The heuristic never overestimates the weight of a walk to the
    destination, and is never negative. *)
Definition admissible (heuristic : Node -> Node -> Q) (G : Graph)
  (destination : Node) : Prop :=
  (forall n, (0 <= heuristic n destination)%Q) /\
  (forall n es, walk G n es destination -> (heuristic n destination <= weight es)%Q).

(** Every edge carries a length, and among parallel edges the first-seen
    one is a cheapest one. *)
Definition first_seen_cheapest (G : Graph) : Prop :=
  (forall e, In e (edges G) -> attr_length (e_attrs e) <> None) /\
  (forall u v e rest,
      filter (joins u v) (edges G) = e :: rest ->
      forall e', In e' rest -> (edge_len e <= edge_len e')%Q).

(** Every node of the path is a node of the graph. *)
Definition on_graph (G : Graph) (path : list Node) : Prop :=
  Forall (fun n => has_node G n = true) path.

(** ** Sample graphs *)

Definition mk_edge (u v : Node) (k : Z) (len : Q) (nm : string) : EdgeRec :=
  {| e_from := u; e_to := v; e_key := k;
     e_attrs := {| attr_length := Some len; attr_name := Some nm |} |}.
Arguments mk_edge (u v k)%_Z len%_Q nm%_string.

Definition at_origin : NodeData := {| node_y := 0%R; node_x := 0%R |}.

(** The scenario of the specification: A -> B (100 m), B -> C (50 m),
    A -> C (200 m), and an isolated fourth node. *)
Definition G4 : Graph :=
  {| nodes := [(1%Z, at_origin); (2%Z, at_origin); (3%Z, at_origin); (4%Z, at_origin)];
     edges := [mk_edge 1 2 0 100 "a"; mk_edge 2 3 0 50 "b"; mk_edge 1 3 0 200 "c"] |}.

(** Two parallel carriageways from 1 to 2, the longer one inserted first,
    and a detour through 3. *)
Definition G_parallel : Graph :=
  {| nodes := [(1%Z, at_origin); (2%Z, at_origin); (3%Z, at_origin)];
     edges := [mk_edge 1 2 0 10 "Old Road"; mk_edge 1 2 1 1 "New Road";
               mk_edge 1 3 0 2 "Detour"; mk_edge 3 2 0 2 "Detour"] |}.

(** Three nodes on the equator at longitudes 0, 1 and 2, joined by two
    due-east hops. *)
Definition on_equator (lon : R) : NodeData := {| node_y := 0%R; node_x := lon |}.
Definition G_east : Graph :=
  {| nodes := [(1%Z, on_equator 0); (2%Z, on_equator 1); (3%Z, on_equator 2)];
     edges := [mk_edge 1 2 0 100 "Equator Road"; mk_edge 2 3 0 100 "Equator Road"] |}.

Definition zero_heuristic : Node -> Node -> Q := fun _ _ => 0%Q.

(** ** Python text

    A Python [str] is read as the list of its characters.  The character
    operations below are the ASCII ones: a letter is one of [A-Z], [a-z],
    white space is one of the codes 9 to 13 and 28 to 32, and the other
    characters have no case and are not white space. *)

Definition str : Type := list ascii.

Definition lit (s : string) : str := list_ascii_of_string s.

Definition isspace (c : ascii) : bool :=
  let n := N_of_ascii c in
  ((9 <=? n) && (n <=? 13))%N || ((28 <=? n) && (n <=? 32))%N.

Definition isupper (c : ascii) : bool :=
  let n := N_of_ascii c in ((65 <=? n) && (n <=? 90))%N.

Definition islower (c : ascii) : bool :=
  let n := N_of_ascii c in ((97 <=? n) && (n <=? 122))%N.

Definition char_lower (c : ascii) : ascii :=
  if isupper c then ascii_of_N (N_of_ascii c + 32) else c.

Definition char_upper (c : ascii) : ascii :=
  if islower c then ascii_of_N (N_of_ascii c - 32) else c.

(** [s.lstrip()], [s.rstrip()], [s.strip()] *)
Fixpoint lstrip (s : str) : str :=
  match s with
  | [] => []
  | c :: s' => if isspace c then lstrip s' else s
  end.

Definition rstrip (s : str) : str := rev (lstrip (rev s)).

Definition strip (s : str) : str := rstrip (lstrip s).

(** [s.lower()] *)
Definition lower (s : str) : str := map char_lower s.

(** One character of [s.title()]: a letter is put in upper case when the
    character before it is not a letter, in lower case otherwise; the flag
    returned says whether this character is a letter. *)
Definition title_step (previous_is_cased : bool) (c : ascii) : ascii * bool :=
  if islower c then ((if previous_is_cased then c else char_upper c), true)
  else if isupper c then ((if previous_is_cased then char_lower c else c), true)
  else (c, false).

Fixpoint title_from (previous_is_cased : bool) (s : str) : str :=
  match s with
  | [] => []
  | c :: s' =>
      let (c', cased) := title_step previous_is_cased c in
      c' :: title_from cased s'
  end.

(** [s.title()] *)
Definition title (s : str) : str := title_from false s.

(** [a == b] on text *)
Definition str_eqb (a b : str) : bool :=
  if list_eq_dec ascii_dec a b then true else false.

Fixpoint starts_with (prefix s : str) : bool :=
  match prefix, s with
  | [], _ => true
  | _ :: _, [] => false
  | a :: prefix', c :: s' => Ascii.eqb a c && starts_with prefix' s'
  end.

(** [sub in s] on text *)
Fixpoint contains (sub s : str) : bool :=
  starts_with sub s ||
  match s with
  | [] => false
  | _ :: s' => contains sub s'
  end.

(** ** [normalize_nepal_query] (lines 40-42) *)

Definition normalize_nepal_query (q : str) : str :=
  let q := strip q in
  if contains (lit "nepal") (lower q) then q else q ++ lit ", Nepal".

(** ** The course recommendation ([1_rolebased_ai.py]) *)

(** [x in student_interests] *)
Definition interest_in (x : str) (student_interests : list str) : bool :=
  existsb (str_eqb x) student_interests.

Definition recommend_course (student_interests : list str) : string :=
  if interest_in (lit "Math") student_interests then "Python"
  else if interest_in (lit "Biology") student_interests then "Biotechnology"
  else if interest_in (lit "Writing") student_interests then "Content Creation"
  else "General Studies".

(** Lines 19-25: the recommendation printed for the line the user types. *)
Definition recommendation_for (typed : str) : string :=
  let user_input := title (strip typed) in
  let interests := [user_input] in
  recommend_course interests.

(** ** Route coordinates and the markers of the map (lines 106, 119-148) *)

Definition Coord : Type := (R * R)%type.

(** [[(G.nodes[n]['y'], G.nodes[n]['x']) for n in path]] *)
Definition route_coords (G : Graph) (path : list Node) : Result (list Coord) :=
  mapM (fun n => d <- node_lookup (nodes G) n ;; Ok (node_y d, node_x d)) path.

(** [l[i]] for a non-negative [i] *)
Definition list_at {A : Type} (l : list A) (i : nat) : Result A :=
  match nth_error l i with
  | Some a => Ok a
  | None => Raise IndexError
  end.

(** [coords[len(coords) // 2]], the centre of the map (lines 120-122). *)
Definition map_centre (coords : list Coord) : Result Coord :=
  let mid_idx := (List.length coords / 2)%nat in
  list_at coords mid_idx.

(** [coords[0]] and [coords[-1]], the start and end markers. *)
Definition start_marker (coords : list Coord) : Result Coord := list_at coords 0.

Definition end_marker (coords : list Coord) : Result Coord :=
  match coords with
  | [] => Raise IndexError
  | c :: cs => Ok (last cs c)
  end.

(** [enumerate(coords[1:-1], 1)], the numbered step markers (line 147). *)
Definition step_markers (coords : list Coord) : list (nat * Coord) :=
  enumerate1 (removelast (tl coords)).

(** ** Labels of the important places (lines 221-246) *)

Section PlaceLabels.

(** The characters of a name, with the one-character ellipsis; the geometry
    of a row and its centroid, [None] when taking it raises. *)
Variable char : Type.
Variable ellipsis : char.
Variable geometry : Type.
Variable centroid_latlon : geometry -> option Coord.

(** A row: [row.get("geometry", None)] and the name, [None] when the key is
    missing or holds [None]. *)
Record PlaceRow : Type :=
  { row_geometry : option geometry; row_name : option (list char) }.

(** [nm[:45] + ("…" if len(nm) > 45 else "")] *)
Definition place_label (nm : list char) : list char :=
  firstn 45 nm ++ (if (45 <? List.length nm)%nat then [ellipsis] else []).

(** The markers the loop adds, in order: the point and the label of each
    row it does not skip. *)
Fixpoint place_markers (rows : list PlaceRow) : list (Coord * list char) :=
  match rows with
  | [] => []
  | row :: rows' =>
      match row_geometry row with
      | None => place_markers rows'
      | Some geom =>
          match centroid_latlon geom with
          | None => place_markers rows'
          | Some pt =>
              let nm := get_or (row_name row) [] in
              match nm with
              | [] => place_markers rows'
              | _ :: _ => (pt, place_label nm) :: place_markers rows'
              end
          end
      end
  end.

End PlaceLabels.

Arguments row_geometry {char geometry} p.
Arguments row_name {char geometry} p.
Arguments Build_PlaceRow {char geometry} row_geometry row_name.
Arguments place_label {char} ellipsis nm.
Arguments place_markers {char} ellipsis {geometry} centroid_latlon rows.

(** ** The [esc] function of the page script (lines 388-390) *)

(** [s.replace(/c/g, r)]: every occurrence of the character replaced. *)
Definition replace_all (c : ascii) (r : str) (s : str) : str :=
  flat_map (fun x => if Ascii.eqb x c then r else [x]) s.

Definition double_quote : ascii := "034"%char.

Definition esc (s : str) : str :=
  replace_all "'" (lit "&#39;")
    (replace_all double_quote (lit "&quot;")
       (replace_all ">" (lit "&gt;")
          (replace_all "<" (lit "&lt;")
             (replace_all "&" (lit "&amp;") s)))).

(** * Properties *)

(** ** Lists, [mapM] and the hops of a path *)

Lemma mapM_length {A B : Type} (f : A -> Result B) (l : list A) (bs : list B) :
  mapM f l = Ok bs -> List.length bs = List.length l.
Proof.
  revert bs; induction l as [|a l IH]; intros bs H; simpl in H.
  - now inversion H.
  - destruct (f a) as [b|]; simpl in H; [|discriminate].
    destruct (mapM f l) as [bs'|]; simpl in H; [|discriminate].
    inversion H; subst; simpl; f_equal; now apply IH.
Qed.

Lemma mapM_nth {A B : Type} (f : A -> Result B) (l : list A) (bs : list B) :
  mapM f l = Ok bs ->
  forall k a, nth_error l k = Some a ->
              exists b, nth_error bs k = Some b /\ f a = Ok b.
Proof.
  revert bs; induction l as [|a0 l IH]; intros bs H k a Hk.
  - destruct k; discriminate.
  - simpl in H. destruct (f a0) as [b0|] eqn:Hf; simpl in H; [|discriminate].
    destruct (mapM f l) as [bs'|] eqn:Hm; simpl in H; [|discriminate].
    inversion H; subst. destruct k as [|k]; simpl in *.
    + inversion Hk; subst. now exists b0.
    + now apply IH.
Qed.

Lemma mapM_total {A B : Type} (f : A -> Result B) (l : list A) :
  (forall a, In a l -> exists b, f a = Ok b) -> exists bs, mapM f l = Ok bs.
Proof.
  induction l as [|a l IH]; intros H; simpl.
  - now exists [].
  - destruct (H a (or_introl eq_refl)) as [b Hb]. rewrite Hb; simpl.
    destruct IH as [bs Hbs]; [intros; apply H; now right|].
    rewrite Hbs; simpl. now exists (b :: bs).
Qed.

Lemma hops_cons2 (a b : Node) (l : list Node) :
  hops (a :: b :: l) = (a, b) :: hops (b :: l).
Proof. reflexivity. Qed.

Lemma hops_length (path : list Node) :
  List.length (hops path) = (List.length path - 1)%nat.
Proof.
  induction path as [|a [|b l] IH]; try reflexivity.
  rewrite hops_cons2. simpl List.length in *. lia.
Qed.

Lemma hops_nth (path : list Node) (k : nat) (u v : Node) :
  nth_error (hops path) k = Some (u, v) <->
  nth_error path k = Some u /\ nth_error path (S k) = Some v.
Proof.
  revert k; induction path as [|a [|b l] IH]; intros k.
  - destruct k; simpl; (split; [discriminate| intros [H _]; discriminate]).
  - destruct k as [|[|k]]; simpl; split; try discriminate;
      intros [_ H]; try discriminate; destruct k; discriminate.
  - rewrite hops_cons2. destruct k as [|k].
    + simpl. split.
      * intros H; inversion H; auto.
      * intros [H1 H2]; inversion H1; inversion H2; auto.
    + change (nth_error ((a, b) :: hops (b :: l)) (S k))
        with (nth_error (hops (b :: l)) k).
      rewrite IH. reflexivity.
Qed.

Lemma enumerate_from_nth {A : Type} (l : list A) (s k : nat) (a : A) :
  nth_error l k = Some a ->
  nth_error (combine (seq s (List.length l)) l) k = Some ((s + k)%nat, a).
Proof.
  revert s k; induction l as [|a0 l IH]; intros s k H.
  - destruct k; discriminate.
  - destruct k as [|k]; simpl in *.
    + inversion H; subst. now rewrite Nat.add_0_r.
    + rewrite (IH (S s) k H). do 2 f_equal. lia.
Qed.

Lemma enumerate1_nth {A : Type} (l : list A) (k : nat) (a : A) :
  nth_error l k = Some a -> nth_error (enumerate1 l) k = Some (S k, a).
Proof. intros H. unfold enumerate1. now rewrite (enumerate_from_nth l 1 k a H). Qed.

Lemma enumerate1_in {A : Type} (l : list A) (i : nat) (a : A) :
  In (i, a) (enumerate1 l) -> exists k, i = S k /\ nth_error l k = Some a.
Proof.
  intros H. apply In_nth_error in H. destruct H as [k Hk].
  assert (Hlen : (k < List.length l)%nat).
  { assert (Hl : (k < List.length (enumerate1 l))%nat).
    { apply nth_error_Some. congruence. }
    unfold enumerate1 in Hl. rewrite length_combine, length_seq in Hl. lia. }
  destruct (nth_error l k) as [a'|] eqn:Ha.
  - rewrite (enumerate1_nth _ _ _ Ha) in Hk. inversion Hk; subst. now exists k.
  - apply nth_error_None in Ha. lia.
Qed.

(** ** The edge dict of a pair and the edge the program selects *)

Lemma hop_edge_first (G : Graph) (u v : Node) (e : EdgeRec) (rest : list EdgeRec) :
  filter (joins u v) (edges G) = e :: rest -> hop_edge G u v = Ok (e_attrs e).
Proof.
  intros H. unfold hop_edge, get_edge_data. rewrite H. simpl.
  now rewrite Z.eqb_refl.
Qed.

Lemma hop_edge_none (G : Graph) (u v : Node) :
  filter (joins u v) (edges G) = [] -> hop_edge G u v = Ok no_attrs.
Proof. intros H. unfold hop_edge, get_edge_data. now rewrite H. Qed.

Lemma hop_edge_total (G : Graph) (u v : Node) : exists a, hop_edge G u v = Ok a.
Proof.
  destruct (filter (joins u v) (edges G)) as [|e rest] eqn:H.
  - exists no_attrs. now apply hop_edge_none.
  - exists (e_attrs e). now apply hop_edge_first with rest.
Qed.

Lemma get_edge_length_hop_edge (G : Graph) (u v : Node) :
  get_edge_length G u v = (a <- hop_edge G u v ;; Ok (get_or (attr_length a) 0%Q)).
Proof.
  unfold get_edge_length, hop_edge.
  destruct (get_edge_data G u v) as [d|]; [|reflexivity].
  destruct (first_key d) as [k|]; [|reflexivity]. simpl.
  now destruct (dict_get d k).
Qed.

Lemma first_seen_filter (G : Graph) (u v : Node) (e : EdgeRec)
  (earlier later : list EdgeRec) :
  edges G = earlier ++ e :: later ->
  joins u v e = true ->
  forallb (fun e' => negb (joins u v e')) earlier = true ->
  filter (joins u v) (edges G) = e :: filter (joins u v) later.
Proof.
  intros HG He Hno. rewrite HG, filter_app. simpl. rewrite He.
  replace (filter (joins u v) earlier) with (@nil EdgeRec); [reflexivity|].
  symmetry. clear HG. induction earlier as [|e0 l IH]; [reflexivity|].
  simpl in *. apply andb_prop in Hno. destruct Hno as [H0 Hl].
  apply negb_true_iff in H0. rewrite H0. now apply IH.
Qed.

Lemma direction_reads_hop_edge (G : Graph) (path : list Node) (i : nat)
  (u v : Node) (s : Step) :
  direction G path (i, (u, v)) = Ok s ->
  exists a, hop_edge G u v = Ok a /\
            street_name s = get_or (attr_name a) unnamed_road /\
            length_meters s = get_or (attr_length a) 0%Q.
Proof.
  unfold direction. intros H.
  destruct (hop_edge G u v) as [a|]; simpl in H; [|discriminate].
  destruct (hop_turn G path i u v) as [t|]; simpl in H; [|discriminate].
  inversion H; subst; simpl. now exists a.
Qed.

Lemma direction_length (G : Graph) (path : list Node) (i : nat) (u v : Node)
  (s : Step) :
  direction G path (i, (u, v)) = Ok s ->
  get_edge_length G u v = Ok (length_meters s).
Proof.
  intros H. apply direction_reads_hop_edge in H. destruct H as (a & Ha & _ & Hl).
  rewrite get_edge_length_hop_edge, Ha. simpl. now rewrite Hl.
Qed.

Lemma total_dist_total (G : Graph) (path : list Node) :
  exists t, total_dist G path = Ok t.
Proof.
  unfold total_dist.
  destruct (mapM_total (fun uv => get_edge_length G (fst uv) (snd uv)) (hops path))
    as [ls Hls].
  - intros [u v] _. simpl. rewrite get_edge_length_hop_edge.
    destruct (hop_edge_total G u v) as [a Ha]. rewrite Ha. simpl. eauto.
  - rewrite Hls. simpl. eauto.
Qed.

(** ** Nodes of a path and the directions loop *)

Lemma has_node_lookup (G : Graph) (n : Node) :
  has_node G n = true -> exists d, node_lookup (nodes G) n = Ok d.
Proof.
  unfold has_node. induction (nodes G) as [|[m d] ns IH]; simpl; [discriminate|].
  destruct (m =? n)%Z; simpl; eauto.
Qed.

Lemma on_graph_nth (G : Graph) (path : list Node) (k : nat) (n : Node) :
  on_graph G path -> nth_error path k = Some n -> has_node G n = true.
Proof.
  intros H Hk. unfold on_graph in H. rewrite Forall_forall in H.
  apply H. eapply nth_error_In; eauto.
Qed.

Lemma hop_turn_after_first (G : Graph) (path : list Node) (k : nat) (u v : Node)
  (a b : NodeData) :
  nth_error path (S k) = Some u ->
  node_lookup (nodes G) u = Ok a ->
  node_lookup (nodes G) v = Ok b ->
  hop_turn G path (S (S k)) u v
  = Ok (classify_turn (bearing_diff (bearing a a) (bearing a b))).
Proof.
  intros Hu Ha Hb. unfold hop_turn.
  replace (1 <? S (S k))%nat with true by (symmetry; apply Nat.ltb_lt; lia).
  replace (S (S k) - 1)%nat with (S k) by lia.
  unfold path_at. rewrite Hu. simpl. rewrite Ha. simpl. now rewrite Hb.
Qed.

Lemma direction_total (G : Graph) (path : list Node) (k : nat) (u v : Node) :
  on_graph G path ->
  nth_error path k = Some u -> nth_error path (S k) = Some v ->
  exists s, direction G path (S k, (u, v)) = Ok s /\
            (k = 0%nat -> instruction s = Start).
Proof.
  intros Hg Hu Hv. unfold direction.
  destruct (hop_edge_total G u v) as [e He]. rewrite He. simpl.
  destruct k as [|k].
  - unfold hop_turn. simpl. eexists; split; [reflexivity|]. reflexivity.
  - destruct (has_node_lookup G u) as [a Ha]; [eapply on_graph_nth; eauto|].
    destruct (has_node_lookup G v) as [b Hb]; [eapply on_graph_nth; eauto|].
    rewrite (hop_turn_after_first G path k u v a b Hu Ha Hb). simpl.
    eexists; split; [reflexivity|]. discriminate.
Qed.

Lemma directions_total (G : Graph) (path : list Node) :
  on_graph G path -> exists steps, directions G path = Ok steps.
Proof.
  intros Hg. unfold directions. apply mapM_total.
  intros [i [u v]] Hin. apply enumerate1_in in Hin.
  destruct Hin as (k & -> & Hk). apply hops_nth in Hk. destruct Hk as [Hu Hv].
  destruct (direction_total G path k u v Hg Hu Hv) as (s & Hs & _). eauto.
Qed.

Lemma directions_nth (G : Graph) (path : list Node) (steps : list Step)
  (k : nat) (u v : Node) :
  directions G path = Ok steps ->
  nth_error path k = Some u -> nth_error path (S k) = Some v ->
  exists s, nth_error steps k = Some s /\ direction G path (S k, (u, v)) = Ok s.
Proof.
  intros Hd Hu Hv. unfold directions in Hd.
  assert (Hh : nth_error (hops path) k = Some (u, v)) by (apply hops_nth; auto).
  apply enumerate1_nth in Hh.
  exact (mapM_nth _ _ _ Hd _ _ Hh).
Qed.

Lemma directions_lengths (G : Graph) (path : list Node) (steps : list Step) :
  directions G path = Ok steps ->
  mapM (fun uv => get_edge_length G (fst uv) (snd uv)) (hops path)
  = Ok (map length_meters steps).
Proof.
  unfold directions, enumerate1. generalize 1%nat as s. revert steps.
  induction (hops path) as [|[u v] l IH]; intros steps s H;
    cbn [mapM combine seq List.length fst snd] in *.
  - injection H as <-. reflexivity.
  - destruct (direction G path (s, (u, v))) as [st|] eqn:Hst;
      cbn [bind] in H; [|discriminate].
    destruct (mapM (direction G path) (combine (seq (S s) (List.length l)) l))
      as [sts|] eqn:Hm; cbn [bind] in H; [|discriminate].
    injection H as <-. rewrite (direction_length _ _ _ _ _ _ Hst).
    cbn [bind map]. rewrite (IH sts (S s) Hm). reflexivity.
Qed.

(** ** Bearings and the turn of a hop *)

Lemma fmod_range (a m : R) : (0 < m)%R -> (0 <= fmod a m < m)%R.
Proof.
  intros Hm. unfold fmod. destruct (Zfloor_bound (a / m)) as [Hlo Hhi].
  assert (Ha : (a = m * (a / m))%R) by (field; lra).
  set (q := IZR (Zfloor (a / m))) in *. split.
  - assert ((m * q <= m * (a / m))%R) by (apply Rmult_le_compat_l; lra). lra.
  - assert ((m * (a / m) < m * (q + 1))%R) by (apply Rmult_lt_compat_l; lra). lra.
Qed.

Lemma fmod_full_turn : fmod 360 360 = 0%R.
Proof.
  unfold fmod. replace (Zfloor (360 / 360)) with 1%Z; [lra|].
  symmetry. apply Zfloor_eq. lra.
Qed.

Lemma atan2_origin : atan2 0 0 = 0%R.
Proof.
  unfold atan2. repeat (destruct (Rlt_dec _ _); try lra).
Qed.

Lemma bearing_same_point (a b : NodeData) :
  node_y a = node_y b -> node_x a = node_x b -> bearing a b = 0%R.
Proof.
  intros Hy Hx. unfold bearing. rewrite Hy, Hx.
  replace (radians (node_x b) - radians (node_x b))%R with 0%R by ring.
  rewrite sin_0, cos_0.
  replace (0 * cos (radians (node_y b)))%R with 0%R by ring.
  replace (cos (radians (node_y b)) * sin (radians (node_y b))
           - sin (radians (node_y b)) * cos (radians (node_y b)) * 1)%R
    with 0%R by ring.
  rewrite atan2_origin. unfold degrees.
  replace (0 * 180 / PI + 360)%R with 360%R by (unfold Rdiv; ring).
  apply fmod_full_turn.
Qed.


Ltac by_thresholds :=
  unfold classify_turn;
  repeat match goal with
         | |- context [Rlt_dec ?a ?b] => destruct (Rlt_dec a b)
         | |- context [Rgt_dec ?a ?b] => destruct (Rgt_dec a b)
         end;
  try reflexivity; exfalso; lra.


Lemma classify_right (diff : R) :
  (45 <= diff < 135)%R -> classify_turn diff = TurnRight.
Proof. intros H; by_thresholds. Qed.



(** ** Claims on the program's own code *)


(** C4. For a path whose nodes are nodes of the graph the directions loop
    yields exactly [len(path) - 1] steps, the k-th of them built from the
    k-th pair of consecutive nodes, and the first one is Start whatever the
    coordinates. *)
Theorem directions_one_step_per_hop (G : Graph) (path : list Node) :
  on_graph G path ->
  exists steps,
    directions G path = Ok steps /\
    List.length steps = (List.length path - 1)%nat /\
    (forall k u v,
        nth_error path k = Some u -> nth_error path (S k) = Some v ->
        exists s, nth_error steps k = Some s /\
                  direction G path (S k, (u, v)) = Ok s) /\
    (forall s rest, steps = s :: rest -> instruction s = Start).
Proof.
  intros Hg. destruct (directions_total G path Hg) as [steps Hs]. exists steps.
  split; [exact Hs|]. split; [|split].
  - unfold directions in Hs. apply mapM_length in Hs. rewrite Hs.
    unfold enumerate1. rewrite length_combine, length_seq, Nat.min_id.
    apply hops_length.
  - intros k u v Hu Hv. exact (directions_nth G path steps k u v Hs Hu Hv).
  - intros s rest ->.
    destruct path as [|u [|v l]]; try discriminate.
    destruct (directions_nth G (u :: v :: l) _ 0 u v Hs eq_refl eq_refl) as (s0 & H0 & Hd).
    simpl in H0. injection H0 as <-.
    destruct (direction_total G (u :: v :: l) 0 u v Hg eq_refl eq_refl)
      as (s1 & H1 & Hstart).
    rewrite Hd in H1. injection H1 as <-. now apply Hstart.
Qed.

Lemma directions_one_step_per_hop_witness :
  exists steps,
    directions G4 [1; 2; 3]%Z = Ok steps /\
    List.length steps = 2%nat /\
    (forall k u v,
        nth_error [1; 2; 3]%Z k = Some u -> nth_error [1; 2; 3]%Z (S k) = Some v ->
        exists s, nth_error steps k = Some s /\
                  direction G4 [1; 2; 3]%Z (S k, (u, v)) = Ok s) /\
    (forall s rest, steps = s :: rest -> instruction s = Start).
Proof.
  apply (directions_one_step_per_hop G4 [1; 2; 3]%Z).
  repeat constructor.
Defined.

(** C5. The lengths of the steps, summed the way the program sums, give
    the reported total distance exactly. *)
Theorem step_lengths_sum_to_total (G : Graph) (path : list Node) :
  on_graph G path ->
  exists steps total,
    directions G path = Ok steps /\
    total_dist G path = Ok total /\
    py_sum (map length_meters steps) = total.
Proof.
  intros Hg. destruct (directions_total G path Hg) as [steps Hs].
  exists steps, (py_sum (map length_meters steps)).
  split; [exact Hs|]. split; [|reflexivity].
  unfold total_dist. now rewrite (directions_lengths G path steps Hs).
Qed.

Lemma step_lengths_sum_to_total_witness :
  exists steps total,
    directions G4 [1; 2; 3]%Z = Ok steps /\
    total_dist G4 [1; 2; 3]%Z = Ok total /\
    py_sum (map length_meters steps) = total.
Proof.
  apply (step_lengths_sum_to_total G4 [1; 2; 3]%Z).
  repeat constructor.
Defined.



(** ** The bearing the loop compares with *)

Lemma fmod_next_turn (b : R) : (0 <= b < 360)%R -> fmod (b + 360) 360 = b.
Proof.
  intros Hb. unfold fmod. replace (Zfloor ((b + 360) / 360)) with 1%Z; [lra|].
  symmetry. apply Zfloor_eq. lra.
Qed.

Lemma bearing_range (a b : NodeData) : (0 <= bearing a b < 360)%R.
Proof. unfold bearing. apply fmod_range. lra. Qed.

Lemma bearing_due_east (lon : R) :
  bearing (on_equator lon) (on_equator (lon + 1)) = 90%R.
Proof.
  unfold bearing, on_equator, radians. simpl.
  replace (0 * PI / 180)%R with 0%R by lra.
  replace ((lon + 1) * PI / 180 - lon * PI / 180)%R with (PI / 180)%R by lra.
  rewrite sin_0, cos_0.
  assert (Hpi : (0 < PI)%R) by apply PI_RGT_0.
  assert (Hs : (0 < sin (PI / 180))%R) by (apply sin_gt_0; lra).
  replace (1 * 0 - 0 * 1 * cos (PI / 180))%R with 0%R by ring.
  replace (sin (PI / 180) * 1)%R with (sin (PI / 180)) by ring.
  unfold atan2.
  destruct (Rlt_dec 0 0) as [H|_]; [lra|].
  destruct (Rlt_dec 0 (sin (PI / 180))) as [_|H]; [|contradiction].
  unfold degrees. replace (PI / 2 * 180 / PI + 360)%R with (90 + 360)%R by (field; lra).
  apply fmod_next_turn. lra.
Qed.

Lemma bearing_diff_from_north (b : R) :
  (0 <= b < 360)%R -> bearing_diff 0 b = b.
Proof.
  intros Hb. unfold bearing_diff.
  replace (b - 0 + 360)%R with (b + 360)%R by ring.
  now apply fmod_next_turn.
Qed.

(** After the first hop, the node the loop reads as [prev] is [path[i-1]]
    with [i] counted from 1, the node the hop starts from, so [prev_bearing]
    is the bearing from that node to itself, 0, and the turn printed is the
    class of the hop's own bearing. *)
Theorem turn_reads_hop_bearing (G : Graph) (path : list Node) (k : nat)
  (u v : Node) (a b : NodeData) :
  nth_error path (S k) = Some u ->
  node_lookup (nodes G) u = Ok a -> node_lookup (nodes G) v = Ok b ->
  hop_turn G path (S (S k)) u v = Ok (classify_turn (bearing a b)).
Proof.
  intros Hu Ha Hb. rewrite (hop_turn_after_first G path k u v a b Hu Ha Hb).
  rewrite (bearing_same_point a a eq_refl eq_refl).
  now rewrite (bearing_diff_from_north _ (bearing_range a b)).
Qed.

Lemma turn_reads_hop_bearing_witness :
  hop_turn G_east [1; 2; 3]%Z 2 2 3
  = Ok (classify_turn (bearing (on_equator 1) (on_equator 2))).
Proof.
  apply (turn_reads_hop_bearing G_east [1; 2; 3]%Z 0 2 3); reflexivity.
Defined.

(** Two due-east hops in a row: both have bearing 90, and the second is
    printed as a right turn. *)
Example due_east_twice :
  bearing (on_equator 0) (on_equator 1) = 90%R /\
  bearing (on_equator 1) (on_equator 2) = 90%R /\
  hop_turn G_east [1; 2; 3]%Z 2 2 3 = Ok TurnRight.
Proof.
  assert (H1 : bearing (on_equator 0) (on_equator 1) = 90%R).
  { replace 1%R with (0 + 1)%R by ring. apply bearing_due_east. }
  assert (H2 : bearing (on_equator 1) (on_equator 2) = 90%R).
  { replace 2%R with (1 + 1)%R by ring. apply bearing_due_east. }
  split; [exact H1|]. split; [exact H2|].
  rewrite (hop_turn_after_first G_east [1; 2; 3]%Z 0 2 3
             (on_equator 1) (on_equator 2) eq_refl eq_refl eq_refl).
  rewrite (bearing_same_point _ _ eq_refl eq_refl), H2.
  rewrite bearing_diff_from_north by lra.
  f_equal. apply classify_right. lra.
Qed.

(** C10. The length lookup of a pair always returns: 0 when the pair has
    no edge data, 0 when the selected edge has no length attribute; so the
    total of any path is computed, and a printed step carries the same
    value as the lookup. *)
Theorem edge_length_lookup_total (G : Graph) (u v : Node) :
  (exists l, get_edge_length G u v = Ok l) /\
  (get_edge_data G u v = None -> get_edge_length G u v = Ok 0%Q) /\
  (forall a, hop_edge G u v = Ok a -> attr_length a = None ->
             get_edge_length G u v = Ok 0%Q) /\
  (forall path, exists total, total_dist G path = Ok total) /\
  (forall path i s, direction G path (i, (u, v)) = Ok s ->
                    get_edge_length G u v = Ok (length_meters s)) /\
  (forall path i s, direction G path (i, (u, v)) = Ok s ->
                    forall a, hop_edge G u v = Ok a -> attr_length a = None ->
                              length_meters s = 0%Q).
Proof.
  split; [|split; [|split; [|split; [|split]]]].
  - rewrite get_edge_length_hop_edge.
    destruct (hop_edge_total G u v) as [a Ha]. rewrite Ha. simpl. eauto.
  - intros H. unfold get_edge_length. now rewrite H.
  - intros a Ha Hl. rewrite get_edge_length_hop_edge, Ha. simpl. now rewrite Hl.
  - apply total_dist_total.
  - intros path i s Hs. exact (direction_length G path i u v s Hs).
  - intros path i s Hs a Ha Hl.
    destruct (direction_reads_hop_edge G path i u v s Hs) as (a' & Ha' & _ & Hlen).
    rewrite Ha in Ha'. injection Ha' as <-. now rewrite Hlen, Hl.
Qed.

(** C2, the claim as stated fails: with two parallel edges from 1 to 2, of
    10 m (inserted first) and 1 m, the cheapest edge is the second one, yet
    the lookup returns 10 and the printed step names the first edge. *)
Lemma first_edge_not_cheapest :
  edge_between G_parallel 1 2 = Some (mk_edge 1 2 1 1 "New Road") /\
  get_edge_length G_parallel 1 2 = Ok 10%Q /\
  directions G_parallel [1; 2]%Z
  = Ok [ {| instruction := Start; street_name := "Old Road";
            length_meters := 10%Q |} ] /\
  ~ (10 == 1)%Q.
Proof.
  split; [reflexivity|]. split; [reflexivity|]. split; [reflexivity|].
  intros H. discriminate H.
Qed.

(** C2, amended. For a pair joined by parallel edges, the distance lookup
    and the printed step (street name and length) both read the first-seen
    edge of the pair, whatever the lengths of the later ones; that edge is
    the cheapest one when no later parallel edge is strictly shorter. *)
Theorem lookups_read_first_seen_edge (G : Graph) (u v : Node) (e : EdgeRec)
  (earlier later : list EdgeRec) :
  edges G = earlier ++ e :: later ->
  joins u v e = true ->
  forallb (fun e' => negb (joins u v e')) earlier = true ->
  get_edge_length G u v = Ok (get_or (attr_length (e_attrs e)) 0%Q) /\
  hop_edge G u v = Ok (e_attrs e) /\
  (forall path i s,
      direction G path (i, (u, v)) = Ok s ->
      street_name s = get_or (attr_name (e_attrs e)) unnamed_road /\
      length_meters s = get_or (attr_length (e_attrs e)) 0%Q) /\
  ((forall e', In e' later -> joins u v e' = true ->
               (edge_len e <= edge_len e')%Q) ->
   edge_between G u v = Some e).
Proof.
  intros HG He Hno.
  pose proof (first_seen_filter G u v e earlier later HG He Hno) as Hf.
  pose proof (hop_edge_first G u v e _ Hf) as Hh.
  split; [|split; [exact Hh|split]].
  - rewrite get_edge_length_hop_edge, Hh. reflexivity.
  - intros path i s Hs.
    destruct (direction_reads_hop_edge G path i u v s Hs) as (a & Ha & Hn & Hl).
    rewrite Hh in Ha. injection Ha as <-. auto.
  - intros Hmin. unfold edge_between. rewrite Hf. f_equal.
    assert (Hall : forall e', In e' (filter (joins u v) later) ->
                              (edge_len e <= edge_len e')%Q).
    { intros e' Hin. apply filter_In in Hin. destruct Hin. auto. }
    clear Hf Hmin. induction (filter (joins u v) later) as [|e' l IH];
      [reflexivity|].
    simpl. unfold Qltb.
    assert (Hle : Qle_bool (edge_len e) (edge_len e') = true).
    { apply Qle_bool_iff. apply Hall. now left. }
    rewrite Hle. simpl. apply IH. intros e'' Hin. apply Hall. now right.
Qed.

Lemma lookups_read_first_seen_edge_witness :
  get_edge_length G_parallel 1 2 = Ok 10%Q /\
  hop_edge G_parallel 1 2 = Ok (e_attrs (mk_edge 1 2 0 10 "Old Road")) /\
  (forall path i s,
      direction G_parallel path (i, (1%Z, 2%Z)) = Ok s ->
      street_name s = "Old Road"%string /\ length_meters s = 10%Q) /\
  ((forall e', In e' [mk_edge 1 2 1 1 "New Road"; mk_edge 1 3 0 2 "Detour";
                      mk_edge 3 2 0 2 "Detour"] ->
               joins 1 2 e' = true ->
               (edge_len (mk_edge 1 2 0 10 "Old Road") <= edge_len e')%Q) ->
   edge_between G_parallel 1 2 = Some (mk_edge 1 2 0 10 "Old Road")).
Proof.
  apply (lookups_read_first_seen_edge G_parallel 1 2
           (mk_edge 1 2 0 10 "Old Road") []); reflexivity.
Defined.

(** ** Rational comparisons and sums *)

Lemma Qltb_lt (a b : Q) : Qltb a b = true <-> (a < b)%Q.
Proof.
  unfold Qltb. rewrite negb_true_iff. split.
  - intros H. apply Qnot_le_lt. intros Hle.
    apply Qle_bool_iff in Hle. congruence.
  - intros H. destruct (Qle_bool b a) eqn:E; [|reflexivity].
    apply Qle_bool_iff in E. exfalso. exact (Qlt_not_le _ _ H E).
Qed.

Lemma Qltb_ge (a b : Q) : Qltb a b = false <-> (b <= a)%Q.
Proof.
  unfold Qltb. rewrite negb_false_iff. apply Qle_bool_iff.
Qed.

Lemma py_sum_snoc (l : list Q) (x : Q) : py_sum (l ++ [x]) = (py_sum l + x)%Q.
Proof. unfold py_sum. now rewrite fold_left_app. Qed.

Lemma py_sum_app (a b : list Q) : (py_sum (a ++ b) == py_sum a + py_sum b)%Q.
Proof.
  induction b as [|x b IH] using rev_ind.
  - rewrite app_nil_r. unfold py_sum at 3. simpl. lra.
  - rewrite app_assoc, !py_sum_snoc, IH. lra.
Qed.

Lemma py_sum_nonneg (l : list Q) :
  (forall x, In x l -> (0 <= x)%Q) -> (0 <= py_sum l)%Q.
Proof.
  induction l as [|x l IH] using rev_ind; intros H.
  - unfold py_sum; simpl; lra.
  - rewrite py_sum_snoc.
    assert ((0 <= py_sum l)%Q) by (apply IH; intros; apply H, in_or_app; auto).
    assert ((0 <= x)%Q) by (apply H, in_or_app; right; now left).
    lra.
Qed.

Lemma weight_snoc (es : list EdgeRec) (e : EdgeRec) :
  weight (es ++ [e]) = (weight es + edge_len e)%Q.
Proof. unfold weight. rewrite map_app. simpl map. apply py_sum_snoc. Qed.

Lemma weight_app (a b : list EdgeRec) : (weight (a ++ b) == weight a + weight b)%Q.
Proof. unfold weight. rewrite map_app. apply py_sum_app. Qed.

Lemma weight_nonneg (G : Graph) (es : list EdgeRec) :
  nonneg_lengths G -> (forall e, In e es -> In e (edges G)) -> (0 <= weight es)%Q.
Proof.
  intros Hnn Hin. apply py_sum_nonneg. intros x Hx.
  apply in_map_iff in Hx. destruct Hx as (e & <- & He). auto.
Qed.

(** ** Walks *)

Lemma walk_edges (G : Graph) (u v : Node) (es : list EdgeRec) :
  walk G u es v -> forall e, In e es -> In e (edges G).
Proof.
  induction 1 as [|es x e Hw IH He Hx]; intros e' Hin.
  - destruct Hin.
  - apply in_app_or in Hin. destruct Hin as [Hin|[<-|[]]]; auto.
Qed.

Lemma walk_one (G : Graph) (e : EdgeRec) :
  In e (edges G) -> walk G (e_from e) [e] (e_to e).
Proof.
  intros He. change [e] with ([] ++ [e]).
  apply walk_snoc with (e_from e); auto. constructor.
Qed.

(** ** The frontier: removal and the pick of the lowest entry *)

Lemma drop_In (n x : Node) (l : list Node) :
  In x (drop n l) <-> In x l /\ x <> n.
Proof.
  unfold drop. rewrite filter_In, negb_true_iff, Z.eqb_neq. reflexivity.
Qed.

Lemma drop_length (n : Node) (l : list Node) :
  (List.length (drop n l) <= List.length l)%nat.
Proof. unfold drop. apply filter_length_le. Qed.

Lemma drop_length_lt (n : Node) (l : list Node) :
  In n l -> (List.length (drop n l) < List.length l)%nat.
Proof.
  unfold drop. induction l as [|a l IH]; intros Hin; [destruct Hin|].
  simpl. destruct (a =? n)%Z eqn:E; simpl.
  - pose proof (filter_length_le (fun m : Node => negb (m =? n)%Z) l). lia.
  - destruct Hin as [->|Hin]; [rewrite Z.eqb_refl in E; discriminate|].
    apply IH in Hin. lia.
Qed.

Definition key_le (a b : Q * Q) : Prop :=
  (fst a < fst b)%Q \/ ((fst a == fst b)%Q /\ (snd a <= snd b)%Q).

Section Lowest.

Variable heuristic : Node -> Node -> Q.
Variable destination : Node.

Lemma before_key_le (a b : Q * Q) :
  before a b = true -> key_le a b.
Proof.
  unfold before, key_le. intros H. apply orb_prop in H. destruct H as [H|H].
  - left. now apply Qltb_lt.
  - apply andb_prop in H. destruct H as [He Hl]. right.
    apply Qeq_bool_iff in He. apply Qltb_lt in Hl. split; [exact He|lra].
Qed.

Lemma not_before_key_le (a b : Q * Q) :
  before a b = false -> key_le b a.
Proof.
  unfold before, key_le. intros H. apply orb_false_elim in H.
  destruct H as [Hf Hh]. apply Qltb_ge in Hf.
  destruct (Qeq_bool (fst a) (fst b)) eqn:E.
  - apply Qeq_bool_iff in E. simpl in Hh. apply Qltb_ge in Hh.
    right. split; [lra|exact Hh].
  - left. apply Qle_lteq in Hf. destruct Hf as [Hf|Hf]; [exact Hf|].
    exfalso. assert (Qeq_bool (fst a) (fst b) = true)
      by (apply Qeq_bool_iff; lra). congruence.
Qed.

Lemma key_le_refl (a : Q * Q) : key_le a a.
Proof. right. split; lra. Qed.

Lemma key_le_trans (a b c : Q * Q) : key_le a b -> key_le b c -> key_le a c.
Proof.
  unfold key_le. intros [H1|[H1 H1']] [H2|[H2 H2']].
  - left; lra.
  - left; lra.
  - left; lra.
  - right; split; lra.
Qed.

Lemma lowest_In (st : Search) (best : Node) (rest : list Node) :
  In (lowest heuristic destination st best rest) (best :: rest).
Proof.
  revert best. induction rest as [|n rest IH]; intros best; simpl.
  - now left.
  - destruct (before _ _).
    + destruct (IH n) as [H|H]; [right; left; exact H|right; right; exact H].
    + destruct (IH best) as [H|H]; [left; exact H|right; right; exact H].
Qed.

Lemma lowest_le (st : Search) (best : Node) (rest : list Node) :
  forall n, In n (best :: rest) ->
            key_le (f_key heuristic destination st
                      (lowest heuristic destination st best rest))
                   (f_key heuristic destination st n).
Proof.
  revert best. induction rest as [|m rest IH]; intros best n Hin.
  - destruct Hin as [<-|[]]. simpl. apply key_le_refl.
  - simpl. destruct (before _ _) eqn:E.
    + destruct Hin as [<-|[<-|Hin]].
      * apply key_le_trans with (f_key heuristic destination st m).
        -- apply IH. now left.
        -- now apply before_key_le.
      * apply IH. now left.
      * apply IH. now right.
    + destruct Hin as [<-|[<-|Hin]].
      * apply IH. now left.
      * apply key_le_trans with (f_key heuristic destination st best).
        -- apply IH. now left.
        -- now apply not_before_key_le.
      * apply IH. now right.
Qed.

Lemma pop_spec (st : Search) (current : Node) (rest : list Node) :
  pop heuristic destination st = Some (current, rest) ->
  In current (frontier st) /\
  rest = drop current (frontier st) /\
  forall n, In n (frontier st) ->
            (fst (f_key heuristic destination st current)
             <= fst (f_key heuristic destination st n))%Q.
Proof.
  unfold pop. destruct (frontier st) as [|n0 l] eqn:Hf; [discriminate|].
  intros H. injection H as <- <-. split; [apply lowest_In|]. split; [reflexivity|].
  intros n Hn. pose proof (lowest_le st n0 l n Hn) as [H|[H _]]; lra.
Qed.

Lemma pop_none (st : Search) :
  pop heuristic destination st = None -> frontier st = [].
Proof. unfold pop. destruct (frontier st); [reflexivity|discriminate]. Qed.

End Lowest.

(** ** The cheapest edge of a pair and the weight of a node sequence *)

Section SequenceWeights.

Variable G : Graph.

Lemma cheapest_In (best : EdgeRec) (es : list EdgeRec) :
  In (cheapest best es) (best :: es).
Proof.
  revert best. induction es as [|e es IH]; intros best; simpl; [now left|].
  destruct (Qltb (edge_len e) (edge_len best)).
  - right. apply IH.
  - destruct (IH best) as [H|H]; [now left|right; now right].
Qed.

Lemma cheapest_le (best : EdgeRec) (es : list EdgeRec) :
  forall e, In e (best :: es) -> (edge_len (cheapest best es) <= edge_len e)%Q.
Proof.
  revert best. induction es as [|e0 es IH]; intros best e Hin; simpl.
  - destruct Hin as [<-|[]]. lra.
  - destruct (Qltb (edge_len e0) (edge_len best)) eqn:E.
    + apply Qltb_lt in E. destruct Hin as [<-|[<-|Hin]].
      * pose proof (IH e0 e0 (or_introl eq_refl)). lra.
      * apply IH. now left.
      * apply IH. now right.
    + apply Qltb_ge in E. destruct Hin as [<-|[<-|Hin]].
      * apply IH. now left.
      * pose proof (IH best best (or_introl eq_refl)). lra.
      * apply IH. now right.
Qed.

Lemma cheapest_first (e : EdgeRec) (rest : list EdgeRec) :
  (forall e', In e' rest -> (edge_len e <= edge_len e')%Q) -> cheapest e rest = e.
Proof.
  induction rest as [|e' rest IH]; intros H; simpl; [reflexivity|].
  assert (Hle : Qltb (edge_len e') (edge_len e) = false).
  { apply Qltb_ge. apply H. now left. }
  rewrite Hle. apply IH. intros e'' Hin. apply H. now right.
Qed.

Lemma joins_spec (u v : Node) (e : EdgeRec) :
  joins u v e = true <-> e_from e = u /\ e_to e = v.
Proof. unfold joins. now rewrite andb_true_iff, !Z.eqb_eq. Qed.

Lemma edge_between_some (u v : Node) (e : EdgeRec) :
  edge_between G u v = Some e -> In e (edges G) /\ e_from e = u /\ e_to e = v.
Proof.
  unfold edge_between. destruct (filter (joins u v) (edges G)) as [|e0 es] eqn:Hf;
    [discriminate|].
  intros H. injection H as <-.
  pose proof (cheapest_In e0 es) as Hin. rewrite <- Hf in Hin.
  apply filter_In in Hin. destruct Hin as [Hin Hj]. apply joins_spec in Hj. tauto.
Qed.

Lemma edge_between_le (e0 : EdgeRec) :
  In e0 (edges G) ->
  exists e, edge_between G (e_from e0) (e_to e0) = Some e /\
            (edge_len e <= edge_len e0)%Q.
Proof.
  intros He0. unfold edge_between.
  assert (Hin : In e0 (filter (joins (e_from e0) (e_to e0)) (edges G))).
  { apply filter_In. split; [exact He0|]. now apply joins_spec. }
  destruct (filter (joins (e_from e0) (e_to e0)) (edges G)) as [|e1 es];
    [destruct Hin|].
  exists (cheapest e1 es). split; [reflexivity|]. now apply cheapest_le.
Qed.

Lemma hops_snoc (p : list Node) (v d : Node) :
  p <> [] -> hops (p ++ [v]) = hops p ++ [(last p d, v)].
Proof.
  induction p as [|a [|b l] IH]; intros Hp.
  - contradiction.
  - reflexivity.
  - change ((a :: b :: l) ++ [v]) with (a :: b :: (l ++ [v])).
    rewrite !hops_cons2.
    change (b :: l ++ [v]) with ((b :: l) ++ [v]).
    rewrite IH by discriminate. reflexivity.
Qed.

Lemma seq_weight_snoc (p : list Node) (v d : Node) :
  p <> [] ->
  seq_weight G (p ++ [v]) = (seq_weight G p + hop_cost G (last p d, v))%Q.
Proof.
  intros Hp. unfold seq_weight. rewrite (hops_snoc p v d Hp), map_app. simpl.
  apply py_sum_snoc.
Qed.

Lemma valid_sequence_walk (u v : Node) (p : list Node) :
  valid_sequence G u v p ->
  exists es, walk G u es v /\ weight es = seq_weight G p.
Proof.
  revert v. induction p as [|b p IH] using rev_ind; intros v (Hhd & Hlast & Hedges).
  - discriminate.
  - rewrite last_last in Hlast. subst b.
    destruct p as [|a p'] eqn:Hp.
    + simpl in Hhd. injection Hhd as ->. exists []. split; [constructor|reflexivity].
    + rewrite <- Hp in *.
      assert (Hne : p <> []) by (rewrite Hp; discriminate).
      assert (Hv : valid_sequence G u (last p u) p).
      { split; [|split; [reflexivity|]].
        - rewrite Hp in *. exact Hhd.
        - intros x y Hxy. apply Hedges. rewrite (hops_snoc p v u Hne).
          apply in_or_app. now left. }
      destruct (IH _ Hv) as (es & Hw & Hwt).
      assert (Hlast : In (last p u, v) (hops (p ++ [v]))).
      { rewrite (hops_snoc p v u Hne). apply in_or_app. right. now left. }
      apply Hedges in Hlast.
      destruct (edge_between G (last p u) v) as [e|] eqn:He; [|contradiction].
      destruct (edge_between_some _ _ _ He) as (Hin & Hfrom & Hto).
      exists (es ++ [e]). split.
      * rewrite <- Hto. apply walk_snoc with (last p u); auto.
      * rewrite weight_snoc, (seq_weight_snoc p v u Hne), Hwt.
        unfold hop_cost. simpl. now rewrite He.
Qed.

End SequenceWeights.

(** ** The invariant of the search *)

Section SearchInvariant.

Variable heuristic : Node -> Node -> Q.
Variable G : Graph.
Variables source destination : Node.
Hypothesis lengths_ok : nonneg_lengths G.

(** The recorded predecessor links lead from [v] back to the source
    along the node list [p]. *)
Inductive linked (st : Search) : Node -> list Node -> Prop :=
| linked_source : linked st source [source]
| linked_step (v u : Node) (p : list Node) :
    v <> source -> predecessor st v = Some u -> linked st u p ->
    linked st v (p ++ [v]).

(** Along a walk from the source, every node passed has a recorded [g]
    no larger than the weight of the walk up to it. *)
Definition prefix_ok (st : Search) (es : list EdgeRec) : Prop :=
  forall es1 es2,
    es = es1 ++ es2 ->
    exists c1, best_g st (last (map e_to es1) source) = Some c1 /\
               (c1 <= weight es1)%Q.

(** A recorded [g] is the weight of a walk from the source that passes
    no node twice. *)
Definition realized (st : Search) (v : Node) (c : Q) : Prop :=
  exists es,
    walk G source es v /\ NoDup (source :: map e_to es) /\
    (weight es == c)%Q /\ prefix_ok st es.

(** [pend] lists the outgoing edges of the node being expanded that are
    still to be relaxed; it is empty between two pops. *)
Record Inv (pend : list EdgeRec) (st : Search) : Prop :=
  { inv_source : best_g st source = Some 0%Q;
    inv_nonneg : forall v c, best_g st v = Some c -> (0 <= c)%Q;
    inv_frontier : forall v, In v (frontier st) -> exists c, best_g st v = Some c;
    inv_dest : forall c, best_g st destination = Some c ->
                         In destination (frontier st);
    inv_closed :
      forall u cu e,
        best_g st u = Some cu -> ~ In u (frontier st) ->
        In e (edges G) -> e_from e = u ->
        In e pend \/
        exists cv, best_g st (e_to e) = Some cv /\ (cv <= cu + edge_len e)%Q;
    inv_pred :
      forall v u,
        predecessor st v = Some u ->
        v <> source /\
        exists cu cv e,
          best_g st u = Some cu /\ best_g st v = Some cv /\
          In e (edges G) /\ e_from e = u /\ e_to e = v /\
          (cu + edge_len e <= cv)%Q;
    inv_linked : forall v c, best_g st v = Some c -> exists p, linked st v p;
    inv_realized : forall v c, best_g st v = Some c -> realized st v c }.

(** Every recorded [g] of [st] is still recorded in [st'], and no
    larger. *)
Definition g_le (st' st : Search) : Prop :=
  forall x c, best_g st x = Some c ->
              exists c', best_g st' x = Some c' /\ (c' <= c)%Q.

Lemma prefix_ok_g_le (st st' : Search) (es : list EdgeRec) :
  g_le st' st -> prefix_ok st es -> prefix_ok st' es.
Proof.
  intros Hle Hp es1 es2 Hes. destruct (Hp es1 es2 Hes) as (c1 & Hc1 & Hw).
  destruct (Hle _ _ Hc1) as (c' & Hc' & Hcc). exists c'. split; [exact Hc'|lra].
Qed.

Lemma improves_spec (candidate : Q) (known : option Q) :
  improves candidate known = true ->
  known = None \/ exists old, known = Some old /\ (candidate < old)%Q.
Proof.
  destruct known as [old|]; simpl; intros H; [right|now left].
  exists old. split; [reflexivity|]. now apply Qltb_lt.
Qed.

Lemma not_improves_spec (candidate : Q) (known : option Q) :
  improves candidate known = false ->
  exists old, known = Some old /\ (old <= candidate)%Q.
Proof.
  destruct known as [old|]; simpl; intros H; [|discriminate].
  exists old. split; [reflexivity|]. now apply Qltb_ge.
Qed.

Lemma update_same {A : Type} (m : Node -> option A) (k : Node) (a : A) :
  update m k a k = Some a.
Proof. unfold update. now rewrite Z.eqb_refl. Qed.

Lemma update_other {A : Type} (m : Node -> option A) (k n : Node) (a : A) :
  n <> k -> update m k a n = m n.
Proof. unfold update. intros H. apply Z.eqb_neq in H. now rewrite H. Qed.

(** *** Predecessor chains *)

Lemma linked_last (st : Search) (v : Node) (p : list Node) :
  linked st v p -> last p source = v.
Proof. destruct 1; [reflexivity|apply last_last]. Qed.

Lemma linked_g_le (pend : list EdgeRec) (st : Search) (v : Node) (p : list Node) :
  Inv pend st -> linked st v p ->
  forall x, In x p ->
            exists cx cv, best_g st x = Some cx /\ best_g st v = Some cv /\
                          (cx <= cv)%Q.
Proof.
  intros HI. induction 1 as [|v u p Hv Hp Hl IH]; intros x Hx.
  - destruct Hx as [<-|[]]. exists 0%Q, 0%Q.
    rewrite (inv_source _ _ HI). repeat split; lra.
  - destruct (inv_pred _ _ HI v u Hp) as (_ & cu & cv & e & Hu & Hcv & He & _ & _ & Hle).
    pose proof (lengths_ok e He) as Hnn.
    apply in_app_or in Hx. destruct Hx as [Hx|[<-|[]]].
    + destruct (IH x Hx) as (cx & cu' & Hcx & Hcu' & Hxu).
      rewrite Hu in Hcu'. injection Hcu' as <-.
      exists cx, cv. repeat split; auto. lra.
    + exists cv, cv. repeat split; auto. lra.
Qed.

Lemma linked_unchanged (st st' : Search) (v : Node) (p : list Node) (t : Node) :
  (forall x, x <> t -> predecessor st' x = predecessor st x) ->
  linked st v p -> ~ In t p -> linked st' v p.
Proof.
  intros Hsame. induction 1 as [|v u p Hv Hp Hl IH]; intros Hnot.
  - constructor.
  - apply linked_step with u; auto.
    + rewrite Hsame; auto. intros ->. apply Hnot, in_or_app. right. now left.
    + apply IH. intros Hin. apply Hnot, in_or_app. now left.
Qed.

Lemma linked_relinked (st st' : Search) (t current : Node) (pc : list Node) :
  (forall x, x <> t -> predecessor st' x = predecessor st x) ->
  predecessor st' t = Some current -> t <> source ->
  linked st' current pc ->
  forall v p, linked st v p -> exists p', linked st' v p'.
Proof.
  intros Hsame Ht Hts Hc. induction 1 as [|v u p Hv Hp Hl [p' IH]].
  - exists [source]. constructor.
  - destruct (Z.eq_dec v t) as [->|Hvt].
    + exists (pc ++ [t]). now apply linked_step with current.
    + exists (p' ++ [v]). apply linked_step with u; auto.
      rewrite Hsame; auto.
Qed.

Lemma linked_walk_back (st : Search) (v : Node) (p : list Node) :
  linked st v p ->
  forall fuel acc,
    (List.length p <= fuel)%nat ->
    walk_back fuel source st v acc = Some (p ++ acc).
Proof.
  induction 1 as [|v u p Hv Hp Hl IH]; intros fuel acc Hlen.
  - destruct fuel as [|fuel]; [simpl in Hlen; lia|].
    simpl. now rewrite Z.eqb_refl.
  - destruct fuel as [|fuel]; [rewrite length_app in Hlen; simpl in Hlen; lia|].
    simpl. apply Z.eqb_neq in Hv. rewrite Hv, Hp.
    rewrite IH; [now rewrite <- app_assoc|].
    rewrite length_app in Hlen. simpl in Hlen. lia.
Qed.

(** *** Walks that pass no node twice *)

Lemma passes_prefix (es : list EdgeRec) (v : Node) :
  In v (source :: map e_to es) ->
  exists es1 es2, es = es1 ++ es2 /\ last (map e_to es1) source = v.
Proof.
  intros [<-|Hin].
  - exists [], es. split; reflexivity.
  - apply in_map_iff in Hin. destruct Hin as (e0 & <- & Hin).
    apply in_split in Hin. destruct Hin as (l1 & l2 & ->).
    exists (l1 ++ [e0]), l2. split.
    + now rewrite <- app_assoc.
    + rewrite map_app. simpl. apply last_last.
Qed.

Lemma weight_prefix_le (es1 es2 : list EdgeRec) :
  (forall e, In e (es1 ++ es2) -> In e (edges G)) ->
  (weight es1 <= weight (es1 ++ es2))%Q.
Proof.
  intros Hin. rewrite weight_app.
  assert ((0 <= weight es2)%Q).
  { apply (weight_nonneg G); auto. intros e He. apply Hin, in_or_app. now right. }
  lra.
Qed.

Lemma app_snoc_split {A : Type} (l : list A) (a : A) (l1 l2 : list A) :
  l ++ [a] = l1 ++ l2 ->
  (exists l2', l = l1 ++ l2' /\ l2 = l2' ++ [a]) \/ (l1 = l ++ [a] /\ l2 = []).
Proof.
  destruct l2 as [|x l2 _] using rev_ind; intros H.
  - right. rewrite app_nil_r in H. auto.
  - left. rewrite app_assoc in H. apply app_inj_tail in H.
    destruct H as [-> ->]. now exists l2.
Qed.

(** *** Relaxing one edge keeps the invariant *)

Section Relax.

Variables (pend : list EdgeRec) (st : Search) (current : Node) (g_current : Q).
Variable e : EdgeRec.
Hypothesis HI : Inv (e :: pend) st.
Hypothesis Hcur : best_g st current = Some g_current.
Hypothesis Hclosed : ~ In current (frontier st).
Hypothesis He : In e (edges G).
Hypothesis Hfrom : e_from e = current.

Let target := e_to e.
Let candidate := (g_current + edge_len e)%Q.

Lemma relax_candidate_ge : (g_current <= candidate)%Q /\ (0 <= candidate)%Q.
Proof.
  pose proof (lengths_ok e He). pose proof (inv_nonneg _ _ HI _ _ Hcur).
  unfold candidate. split; lra.
Qed.

Lemma relax_idle :
  improves candidate (best_g st target) = false -> Inv pend st.
Proof.
  intros Himp. apply not_improves_spec in Himp. destruct Himp as (old & Hold & Hle).
  destruct HI as [Hs Hn Hf Hd Hc Hp Hl Hr].
  constructor; auto.
  intros u cu e' Hu Hnf He' Hfrom'.
  destruct (Hc u cu e' Hu Hnf He' Hfrom') as [[<-|Hin]|Hex]; auto.
  right. assert (Huc : u = current) by congruence.
  rewrite Huc, Hcur in Hu. injection Hu as <-.
  exists old. split; [exact Hold|exact Hle].
Qed.

Hypothesis Himp : improves candidate (best_g st target) = true.

Let st' : Search :=
  {| best_g := update (best_g st) target candidate;
     predecessor := update (predecessor st) target current;
     frontier := drop target (frontier st) ++ [target] |}.

Lemma relax_improved_lt (old : Q) :
  best_g st target = Some old -> (candidate < old)%Q.
Proof.
  intros Hold. destruct (improves_spec _ _ Himp) as [Hn|(o & Ho & Hlt)].
  - congruence.
  - rewrite Hold in Ho. injection Ho as <-. exact Hlt.
Qed.

Lemma relax_target_not_source : target <> source.
Proof.
  intros Heq. pose proof (inv_source _ _ HI) as Hs. rewrite <- Heq in Hs.
  pose proof (relax_improved_lt _ Hs). pose proof relax_candidate_ge. lra.
Qed.

Lemma relax_target_not_current : target <> current.
Proof.
  intros Heq. pose proof Hcur as Hc. rewrite <- Heq in Hc.
  pose proof (relax_improved_lt _ Hc). pose proof relax_candidate_ge. lra.
Qed.

Lemma relax_g_le : g_le st' st.
Proof.
  intros x c Hx. simpl. destruct (Z.eq_dec x target) as [->|Hne].
  - rewrite update_same. exists candidate. split; [reflexivity|].
    pose proof (relax_improved_lt _ Hx). lra.
  - rewrite update_other by exact Hne. exists c. split; [exact Hx|lra].
Qed.

Lemma relax_frontier_In (x : Node) :
  In x (frontier st') <-> In x (frontier st) \/ x = target.
Proof.
  simpl. rewrite in_app_iff, drop_In. simpl. split.
  - intros [[H _]|[H|[]]]; auto.
  - intros [H|H].
    + destruct (Z.eq_dec x target); auto.
    + right. left. auto.
Qed.

Lemma relax_linked_current :
  exists pc, linked st' current pc.
Proof.
  destruct (inv_linked _ _ HI _ _ Hcur) as [pc Hpc]. exists pc.
  apply linked_unchanged with (st := st) (t := target); auto.
  - intros x Hx. simpl. now rewrite update_other.
  - intros Hin.
    destruct (linked_g_le _ _ _ _ HI Hpc _ Hin) as (cx & cc & Hcx & Hcc & Hle).
    rewrite Hcur in Hcc. injection Hcc as <-.
    pose proof (relax_improved_lt _ Hcx). pose proof relax_candidate_ge. lra.
Qed.

Lemma relax_realized_target : realized st' target candidate.
Proof.
  destruct (inv_realized _ _ HI _ _ Hcur) as (es & Hw & Hnd & Hwt & Hpre).
  assert (Hedges : forall e0, In e0 (es ++ [e]) -> In e0 (edges G)).
  { intros e0 H0. apply in_app_or in H0. destruct H0 as [H0|[<-|[]]]; auto.
    eapply walk_edges; eauto. }
  exists (es ++ [e]). split; [|split; [|split]].
  - apply walk_snoc with current; auto.
  - rewrite map_app. simpl.
    assert (Hnot : ~ In target (source :: map e_to es)).
    { intros Hin. destruct (passes_prefix es target Hin) as (es1 & es2 & -> & Hlast).
      destruct (Hpre es1 es2 eq_refl) as (c1 & Hc1 & Hle). rewrite Hlast in Hc1.
      pose proof (relax_improved_lt _ Hc1).
      assert ((weight es1 <= weight (es1 ++ es2))%Q).
      { apply weight_prefix_le. intros e0 H0. apply Hedges, in_or_app. now left. }
      pose proof relax_candidate_ge. lra. }
    change (NoDup ((source :: map e_to es) ++ [target])).
    apply NoDup_app; auto.
    + repeat constructor. intros [].
    + intros x Hx [<-|[]]. contradiction.
  - rewrite weight_snoc. unfold candidate. lra.
  - intros es1 es2 Hsplit. apply app_snoc_split in Hsplit.
    destruct Hsplit as [(es2' & -> & ->)|[-> ->]].
    + apply (prefix_ok_g_le st st' _ relax_g_le Hpre es1 es2' eq_refl).
    + rewrite map_app. simpl. rewrite last_last. simpl.
      fold target. rewrite update_same. exists candidate.
      split; [reflexivity|]. rewrite weight_snoc. unfold candidate. lra.
Qed.

Lemma relax_improved : Inv pend st'.
Proof.
  pose proof relax_target_not_source as Hts.
  pose proof relax_target_not_current as Htc.
  pose proof relax_candidate_ge as [Hcg Hc0].
  constructor.
  - simpl. rewrite update_other; [apply (inv_source _ _ HI)|auto].
  - intros v c. simpl. destruct (Z.eq_dec v target) as [->|Hne].
    + rewrite update_same. intros H. injection H as <-. exact Hc0.
    + rewrite update_other by exact Hne. apply (inv_nonneg _ _ HI).
  - intros v Hv. apply relax_frontier_In in Hv. simpl.
    destruct (Z.eq_dec v target) as [->|Hne].
    + rewrite update_same. eauto.
    + rewrite update_other by exact Hne. destruct Hv as [Hv|Hv]; [|contradiction].
      apply (inv_frontier _ _ HI _ Hv).
  - intros c Hc. apply relax_frontier_In.
    destruct (Z.eq_dec destination target) as [Heq|Hne]; [now right|left].
    simpl in Hc. rewrite update_other in Hc by exact Hne.
    apply (inv_dest _ _ HI _ Hc).
  - intros u cu e' Hu Hnf He' Hfrom'.
    assert (Hut : u <> target).
    { intros ->. apply Hnf, relax_frontier_In. now right. }
    assert (Hnf' : ~ In u (frontier st)).
    { intros Hin. apply Hnf, relax_frontier_In. now left. }
    simpl in Hu. rewrite update_other in Hu by exact Hut.
    destruct (inv_closed _ _ HI u cu e' Hu Hnf' He' Hfrom')
      as [[<-|Hin]|(cv & Hcv & Hle)].
    * right. assert (Huc : u = current) by congruence.
      rewrite Huc, Hcur in Hu. injection Hu as <-.
      exists candidate. simpl. fold target. rewrite update_same.
      split; [reflexivity|]. unfold candidate. lra.
    * now left.
    * right. simpl. destruct (Z.eq_dec (e_to e') target) as [Heq|Hne].
      -- rewrite Heq, update_same. exists candidate. split; [reflexivity|].
         rewrite Heq in Hcv. pose proof (relax_improved_lt _ Hcv). lra.
      -- rewrite update_other by exact Hne. exists cv. auto.
  - intros v u. simpl. destruct (Z.eq_dec v target) as [->|Hne].
    + rewrite update_same. intros H. injection H as <-. split; [exact Hts|].
      exists g_current, candidate, e.
      rewrite update_other by (intros Heq; apply Htc; auto).
      rewrite update_same. repeat split; auto. unfold candidate. lra.
    + rewrite update_other by exact Hne. intros Hp.
      destruct (inv_pred _ _ HI v u Hp)
        as (Hvs & cu & cv & e0 & Hu & Hv & He0 & Hf0 & Ht0 & Hle).
      split; [exact Hvs|].
      destruct (relax_g_le _ _ Hu) as (cu' & Hcu' & Hcule).
      exists cu', cv, e0. split; [exact Hcu'|]. split.
      { simpl. now rewrite update_other by exact Hne. }
      repeat split; auto. lra.
  - intros v c Hv. destruct relax_linked_current as [pc Hpc].
    assert (Hlt : linked st' target (pc ++ [target])).
    { apply linked_step with current; auto. simpl. apply update_same. }
    destruct (Z.eq_dec v target) as [->|Hne]; [eauto|].
    simpl in Hv. rewrite update_other in Hv by exact Hne.
    destruct (inv_linked _ _ HI _ _ Hv) as [p Hp].
    apply (linked_relinked st st' target current pc) with (v := v) (p := p); auto.
    * intros x Hx. simpl. now rewrite update_other.
    * simpl. apply update_same.
  - intros v c. simpl. destruct (Z.eq_dec v target) as [->|Hne].
    + rewrite update_same. intros H. injection H as <-.
      apply relax_realized_target.
    + rewrite update_other by exact Hne. intros Hv.
      destruct (inv_realized _ _ HI _ _ Hv) as (es & Hw & Hnd & Hwt & Hpre).
      exists es. repeat split; auto.
      apply (prefix_ok_g_le st st' _ relax_g_le Hpre).
Qed.

End Relax.

Lemma relax_Inv (pend : list EdgeRec) (st : Search) (current : Node)
  (g_current : Q) (e : EdgeRec) :
  Inv (e :: pend) st ->
  best_g st current = Some g_current ->
  ~ In current (frontier st) ->
  In e (edges G) -> e_from e = current ->
  Inv pend (relax current g_current st e) /\
  best_g (relax current g_current st e) current = Some g_current /\
  ~ In current (frontier (relax current g_current st e)).
Proof.
  intros HI Hcur Hnf He Hfrom. unfold relax.
  destruct (improves (g_current + edge_len e) (best_g st (e_to e))) eqn:Himp.
  - pose proof (relax_target_not_current pend st current g_current e
                  HI Hcur He Himp) as Htc.
    split; [now apply relax_improved|]. split.
    + simpl. rewrite update_other; auto.
    + simpl. rewrite in_app_iff, drop_In. simpl.
      intros [[H _]|[H|[]]]; auto.
  - split; [|auto]. now apply relax_idle with current g_current e.
Qed.

Lemma relax_all_Inv (current : Node) (g_current : Q) (es : list EdgeRec) :
  forall st,
    (forall e, In e es -> In e (edges G) /\ e_from e = current) ->
    Inv es st ->
    best_g st current = Some g_current ->
    ~ In current (frontier st) ->
    Inv [] (fold_left (relax current g_current) es st).
Proof.
  induction es as [|e es IH]; intros st Hes HI Hcur Hnf; simpl.
  - exact HI.
  - destruct (Hes e (or_introl eq_refl)) as [He Hfrom].
    destruct (relax_Inv es st current g_current e HI Hcur Hnf He Hfrom)
      as (HI' & Hcur' & Hnf').
    apply IH; auto. intros e' He'. apply Hes. now right.
Qed.

(** *** The first state and the state after a pop *)

Lemma start_Inv : Inv [] (start source).
Proof.
  assert (Hg : forall v c, best_g (start source) v = Some c ->
                           v = source /\ c = 0%Q).
  { intros v c. simpl. unfold update, no_entry.
    destruct (v =? source)%Z eqn:E; [|discriminate].
    apply Z.eqb_eq in E. intros H. injection H as <-. auto. }
  constructor.
  - simpl. apply update_same.
  - intros v c H. destruct (Hg v c H) as [_ ->]. lra.
  - intros v [<-|[]]. exists 0%Q. simpl. apply update_same.
  - intros c H. destruct (Hg _ c H) as [-> _]. now left.
  - intros u cu e H Hnf. destruct (Hg u cu H) as [-> _].
    exfalso. apply Hnf. now left.
  - intros v u H. discriminate H.
  - intros v c H. destruct (Hg v c H) as [-> _]. exists [source]. constructor.
  - intros v c H. destruct (Hg v c H) as [-> ->]. exists [].
    split; [constructor|]. split; [repeat constructor; intros []|].
    split; [reflexivity|].
    intros es1 es2 Hsplit. symmetry in Hsplit. apply app_eq_nil in Hsplit.
    destruct Hsplit as [-> _]. exists 0%Q. split; [apply update_same|].
    unfold weight, py_sum. simpl. lra.
Qed.

Lemma linked_ext (st st' : Search) (v : Node) (p : list Node) :
  (forall x, predecessor st' x = predecessor st x) ->
  linked st v p -> linked st' v p.
Proof.
  intros Hsame. induction 1 as [|v u p Hv Hp Hl IH]; [constructor|].
  apply linked_step with u; auto. now rewrite Hsame.
Qed.

Definition popped (st : Search) (rest : list Node) : Search :=
  {| best_g := best_g st; predecessor := predecessor st; frontier := rest |}.

Lemma popped_Inv (st : Search) (current : Node) :
  Inv [] st -> In current (frontier st) -> current <> destination ->
  Inv (neighbors G current) (popped st (drop current (frontier st))).
Proof.
  intros HI Hin Hcd. constructor; simpl.
  - apply (inv_source _ _ HI).
  - apply (inv_nonneg _ _ HI).
  - intros v Hv. apply drop_In in Hv. apply (inv_frontier _ _ HI). tauto.
  - intros c Hc. apply drop_In. split; [apply (inv_dest _ _ HI _ Hc)|auto].
  - intros u cu e Hu Hnf He Hfrom.
    destruct (Z.eq_dec u current) as [->|Hne].
    + left. unfold neighbors. apply filter_In. split; [exact He|].
      now apply Z.eqb_eq.
    + assert (Hnf' : ~ In u (frontier st)).
      { intros H. apply Hnf, drop_In. auto. }
      destruct (inv_closed _ _ HI u cu e Hu Hnf' He Hfrom) as [[]|H]. now right.
  - apply (inv_pred _ _ HI).
  - intros v c Hv. destruct (inv_linked _ _ HI _ _ Hv) as [p Hp]. exists p.
    apply linked_ext with st; auto.
  - intros v c Hv. destruct (inv_realized _ _ HI _ _ Hv) as (es & Hw & Hnd & Hwt & Hp).
    exists es. repeat split; auto.
Qed.

Lemma neighbors_spec (current : Node) (e : EdgeRec) :
  In e (neighbors G current) <-> In e (edges G) /\ e_from e = current.
Proof. unfold neighbors. rewrite filter_In, Z.eqb_eq. reflexivity. Qed.

(** One turn of the loop on a node other than the destination. *)
Definition expand (st : Search) (current : Node) : Search :=
  fold_left (relax current (known_g st current)) (neighbors G current)
    (popped st (drop current (frontier st))).

Lemma expand_Inv (st : Search) (current : Node) :
  Inv [] st -> In current (frontier st) -> current <> destination ->
  Inv [] (expand st current).
Proof.
  intros HI Hin Hcd. unfold expand.
  destruct (inv_frontier _ _ HI _ Hin) as [c Hc].
  apply relax_all_Inv.
  - intros e He. now apply neighbors_spec.
  - now apply popped_Inv.
  - simpl. unfold known_g. rewrite Hc. reflexivity.
  - simpl. intros H. apply drop_In in H. tauto.
Qed.

(** *** The predecessor chain of a node is a valid sequence *)

Lemma linked_valid (pend : list EdgeRec) (st : Search) (v : Node) (p : list Node) :
  Inv pend st -> linked st v p ->
  valid_sequence G source v p /\
  exists cv, best_g st v = Some cv /\ (seq_weight G p <= cv)%Q.
Proof.
  intros HI. induction 1 as [|v u p Hv Hp Hl IH].
  - split.
    + split; [reflexivity|]. split; [reflexivity|]. intros a b [].
    + exists 0%Q. split; [apply (inv_source _ _ HI)|]. unfold seq_weight, py_sum.
      simpl. lra.
  - destruct IH as ((Hhd & Hlast & Hedges) & cu & Hcu & Hsw).
    destruct (inv_pred _ _ HI v u Hp) as (_ & cu' & cv & e & Hu & Hcv & He & Hf & Ht & Hle).
    rewrite Hcu in Hu. injection Hu as <-.
    assert (Hne : p <> []) by (destruct p; [discriminate|discriminate]).
    pose proof (linked_last _ _ _ Hl) as Hlp.
    destruct (edge_between_le G e He) as (e1 & He1 & Hle1).
    rewrite Hf, Ht in He1.
    split.
    + split; [|split].
      * destruct p; [contradiction|exact Hhd].
      * apply last_last.
      * intros a b Hab. rewrite (hops_snoc p v source Hne) in Hab.
        apply in_app_or in Hab. destruct Hab as [Hab|[Hab|[]]]; [now apply Hedges|].
        injection Hab as <- <-. rewrite Hlp, He1. discriminate.
    + exists cv. split; [exact Hcv|].
      rewrite (seq_weight_snoc G p v source Hne), Hlp. unfold hop_cost. simpl.
      rewrite He1. lra.
Qed.

(** *** A walk from the source meets the frontier *)

Lemma frontier_on_walk (st : Search) :
  Inv [] st ->
  forall es v,
    walk G source es v ->
    (exists cv, best_g st v = Some cv /\ (cv <= weight es)%Q /\
                ~ In v (frontier st)) \/
    (exists y cy es2,
        In y (frontier st) /\ best_g st y = Some cy /\ walk G y es2 v /\
        (cy + weight es2 <= weight es)%Q).
Proof.
  intros HI. induction 1 as [|es x e Hw IH He Hx].
  - destruct (in_dec Z.eq_dec source (frontier st)) as [Hin|Hnin].
    + right. exists source, 0%Q, []. split; [exact Hin|].
      split; [apply (inv_source _ _ HI)|]. split; [constructor|].
      unfold weight, py_sum. simpl. lra.
    + left. exists 0%Q. split; [apply (inv_source _ _ HI)|]. split; [|exact Hnin].
      unfold weight, py_sum. simpl. lra.
  - rewrite weight_snoc. destruct IH as [(cx & Hcx & Hle & Hnf)|(y & cy & es2 & Hy & Hcy & Hw2 & Hle)].
    + destruct (inv_closed _ _ HI x cx e Hcx Hnf He Hx) as [[]|(cv & Hcv & Hcle)].
      destruct (in_dec Z.eq_dec (e_to e) (frontier st)) as [Hin|Hnin].
      * right. exists (e_to e), cv, []. split; [exact Hin|]. split; [exact Hcv|].
        split; [constructor|]. unfold weight at 1, py_sum. simpl. lra.
      * left. exists cv. split; [exact Hcv|]. split; [lra|exact Hnin].
    + right. exists y, cy, (es2 ++ [e]). split; [exact Hy|]. split; [exact Hcy|].
      split; [now apply walk_snoc with x|]. rewrite weight_snoc. lra.
Qed.

Lemma exhausted_unreachable (st : Search) :
  Inv [] st -> frontier st = [] -> ~ reachable G source destination.
Proof.
  intros HI Hf [es Hw].
  destruct (frontier_on_walk st HI es destination Hw)
    as [(cv & Hcv & _ & Hnf)|(y & _ & _ & Hy & _)].
  - apply Hnf. apply (inv_dest _ _ HI _ Hcv).
  - rewrite Hf in Hy. destruct Hy.
Qed.

Lemma popped_destination_optimal (st : Search) (rest : list Node) :
  Inv [] st -> admissible heuristic G destination ->
  pop heuristic destination st = Some (destination, rest) ->
  forall es, walk G source es destination ->
             (known_g st destination <= weight es)%Q.
Proof.
  intros HI [Hh0 Hadm] Hpop es Hw.
  destruct (pop_spec heuristic destination st destination rest Hpop)
    as (Hin & _ & Hmin).
  destruct (frontier_on_walk st HI es destination Hw)
    as [(cv & _ & _ & Hnf)|(y & cy & es2 & Hy & Hcy & Hw2 & Hle)];
    [contradiction|].
  pose proof (Hmin y Hy) as Hk. unfold f_key in Hk. simpl in Hk.
  unfold known_g at 2 in Hk. rewrite Hcy in Hk. simpl in Hk.
  pose proof (Hadm y es2 Hw2). pose proof (Hh0 destination). lra.
Qed.

(** *** A measure that every turn of the loop decreases *)

(** All the edge lists of length at most [n]. *)
Fixpoint lists_upto (n : nat) : list (list EdgeRec) :=
  match n with
  | O => [[]]
  | S n' => [] :: flat_map (fun l => map (fun e => e :: l) (edges G)) (lists_upto n')
  end.

Lemma lists_upto_In (n : nat) (l : list EdgeRec) :
  (List.length l <= n)%nat -> (forall e, In e l -> In e (edges G)) ->
  In l (lists_upto n).
Proof.
  revert l. induction n as [|n IH]; intros l Hlen Hin.
  - destruct l; [now left|simpl in Hlen; lia].
  - destruct l as [|e l]; [now left|]. right.
    apply in_flat_map. exists l. split.
    + apply IH; [simpl in Hlen; lia|]. intros e' He'. apply Hin. now right.
    + apply in_map_iff. exists e. split; [reflexivity|]. apply Hin. now left.
Qed.

Definition candidates : list (list EdgeRec) :=
  lists_upto (List.length (edges G)).

Lemma realized_candidate (st : Search) (v : Node) (c : Q) :
  realized st v c -> exists es, In es candidates /\ (weight es == c)%Q.
Proof.
  intros (es & Hw & Hnd & Hwt & _). exists es. split; [|exact Hwt].
  apply lists_upto_In.
  - apply NoDup_incl_length.
    + apply NoDup_cons_iff in Hnd. destruct Hnd as [_ Hnd].
      now apply NoDup_map_inv in Hnd.
    + intros e He. eapply walk_edges; eauto.
  - intros e He. eapply walk_edges; eauto.
Qed.

Definition rank (g : option Q) : nat :=
  match g with
  | None => S (List.length candidates)
  | Some c => List.length (filter (fun es => Qltb (weight es) c) candidates)
  end.

Lemma filter_length_lt {A : Type} (p q : A -> bool) (l : list A) (x0 : A) :
  (forall x, p x = true -> q x = true) ->
  In x0 l -> p x0 = false -> q x0 = true ->
  (List.length (filter p l) < List.length (filter q l))%nat.
Proof.
  intros Hpq. induction l as [|a l IH]; intros Hin Hp Hq; [destruct Hin|].
  assert (Hle : (List.length (filter p l) <= List.length (filter q l))%nat).
  { clear - Hpq. induction l as [|b l IHl]; simpl; [lia|].
    destruct (p b) eqn:Eb.
    - rewrite (Hpq b Eb). simpl. lia.
    - destruct (q b); simpl; lia. }
  simpl. destruct Hin as [->|Hin].
  - rewrite Hp, Hq. simpl. lia.
  - specialize (IH Hin Hp Hq). destruct (p a) eqn:Ea.
    + rewrite (Hpq a Ea). simpl. lia.
    + destruct (q a); simpl; lia.
Qed.

Lemma rank_improved (st : Search) (v : Node) (c : Q) (known : option Q) :
  realized st v c -> improves c known = true ->
  (rank (Some c) < rank known)%nat.
Proof.
  intros Hr Himp. destruct known as [old|]; simpl.
  - simpl in Himp. apply Qltb_lt in Himp.
    destruct (realized_candidate st v c Hr) as (es & Hes & Hwt).
    apply filter_length_lt with es; auto.
    + intros x Hx. apply Qltb_lt in Hx. apply Qltb_lt. lra.
    + apply Qltb_ge. lra.
    + apply Qltb_lt. lra.
  - pose proof (filter_length_le (fun es => Qltb (weight es) c) candidates). lia.
Qed.

Definition targets : list Node := nodup Z.eq_dec (map e_to (edges G)).

Definition potential (st : Search) : nat :=
  list_sum (map (fun v => rank (best_g st v)) targets).

Definition measure (st : Search) : nat :=
  (2 * potential st + List.length (frontier st))%nat.

Lemma list_sum_lower (f f' : Node -> nat) (l : list Node) (v : Node) :
  NoDup l -> In v l ->
  (forall x, x <> v -> f' x = f x) -> (f' v < f v)%nat ->
  (list_sum (map f' l) < list_sum (map f l))%nat.
Proof.
  intros Hnd Hin Hsame Hlt. induction l as [|a l IH]; [destruct Hin|].
  apply NoDup_cons_iff in Hnd. destruct Hnd as [Hna Hnd]. simpl.
  destruct Hin as [->|Hin].
  - assert (Heq : map f' l = map f l).
    { apply map_ext_in. intros x Hx. apply Hsame. intros ->. contradiction. }
    rewrite Heq. lia.
  - specialize (IH Hnd Hin). rewrite (Hsame a); [lia|].
    intros ->. contradiction.
Qed.

Lemma relax_measure (pend : list EdgeRec) (st : Search) (current : Node)
  (g_current : Q) (e : EdgeRec) :
  Inv (e :: pend) st ->
  best_g st current = Some g_current ->
  In e (edges G) -> e_from e = current ->
  (measure (relax current g_current st e) <= measure st)%nat.
Proof.
  intros HI Hcur He Hfrom. unfold relax.
  destruct (improves (g_current + edge_len e) (best_g st (e_to e))) eqn:Himp;
    [|lia].
  pose proof (relax_realized_target pend st current g_current e HI Hcur He Hfrom Himp)
    as Hr.
  pose proof (rank_improved _ _ _ _ Hr Himp) as Hrank.
  unfold measure. simpl frontier.
  assert (Hpot : (potential
                    {| best_g := update (best_g st) (e_to e) (g_current + edge_len e)%Q;
                       predecessor := update (predecessor st) (e_to e) current;
                       frontier := drop (e_to e) (frontier st) ++ [e_to e] |}
                  < potential st)%nat).
  { unfold potential. simpl best_g.
    apply list_sum_lower with (e_to e).
    - apply NoDup_nodup.
    - apply nodup_In. now apply in_map.
    - intros x Hx. now rewrite update_other.
    - now rewrite update_same. }
  rewrite length_app. simpl. pose proof (drop_length (e_to e) (frontier st)). lia.
Qed.

Lemma relax_all_measure (current : Node) (g_current : Q) (es : list EdgeRec) :
  forall st,
    (forall e, In e es -> In e (edges G) /\ e_from e = current) ->
    Inv es st ->
    best_g st current = Some g_current ->
    ~ In current (frontier st) ->
    (measure (fold_left (relax current g_current) es st) <= measure st)%nat.
Proof.
  induction es as [|e es IH]; intros st Hes HI Hcur Hnf; simpl; [lia|].
  destruct (Hes e (or_introl eq_refl)) as [He Hfrom].
  destruct (relax_Inv es st current g_current e HI Hcur Hnf He Hfrom)
    as (HI' & Hcur' & Hnf').
  pose proof (relax_measure es st current g_current e HI Hcur He Hfrom).
  assert ((measure (fold_left (relax current g_current) es
                      (relax current g_current st e))
           <= measure (relax current g_current st e))%nat).
  { apply IH; auto. intros e' He'. apply Hes. now right. }
  lia.
Qed.

Lemma expand_measure (st : Search) (current : Node) :
  Inv [] st -> In current (frontier st) -> current <> destination ->
  (measure (expand st current) < measure st)%nat.
Proof.
  intros HI Hin Hcd. unfold expand.
  destruct (inv_frontier _ _ HI _ Hin) as [c Hc].
  assert ((measure (fold_left (relax current (known_g st current))
                      (neighbors G current)
                      (popped st (drop current (frontier st))))
           <= measure (popped st (drop current (frontier st))))%nat).
  { apply relax_all_measure.
    - intros e He. now apply neighbors_spec.
    - now apply popped_Inv.
    - simpl. unfold known_g. rewrite Hc. reflexivity.
    - simpl. intros H. apply drop_In in H. tauto. }
  assert ((measure (popped st (drop current (frontier st))) < measure st)%nat).
  { unfold measure, potential. simpl.
    pose proof (drop_length_lt current (frontier st) Hin). lia. }
  lia.
Qed.

(** *** The loop: more fuel changes nothing, enough fuel ends it *)



Lemma linked_walk_back_inv (st : Search) (v : Node) (p : list Node) :
  linked st v p ->
  forall fuel acc q, walk_back fuel source st v acc = Some q -> q = p ++ acc.
Proof.
  induction 1 as [|v u p Hv Hp Hl IH]; intros fuel acc q H.
  - destruct fuel; [discriminate|]. simpl in H. rewrite Z.eqb_refl in H.
    now injection H as <-.
  - destruct fuel; [discriminate|]. simpl in H.
    apply Z.eqb_neq in Hv. rewrite Hv, Hp in H.
    apply IH in H. now rewrite <- app_assoc.
Qed.

(** What an outcome of the loop says about the graph. *)
Definition sound_outcome (out : Result PathResult) : Prop :=
  (out = Raise NoRouteFound /\ ~ reachable G source destination) \/
  (exists p c,
      out = Ok {| path_nodes := p; total_distance_meters := c |} /\
      valid_sequence G source destination p /\
      (seq_weight G p <= c)%Q /\
      (admissible heuristic G destination ->
       forall es, walk G source es destination -> (c <= weight es)%Q)).

Lemma search_sound (fuel : nat) :
  forall st out,
    Inv [] st ->
    search heuristic G destination fuel source st = Some out ->
    sound_outcome out.
Proof.
  induction fuel as [|fuel IH]; intros st out HI H; [discriminate|].
  simpl in H. destruct (pop heuristic destination st) as [[current rest]|] eqn:Hpop.
  - destruct (pop_spec heuristic destination st current rest Hpop) as (Hin & -> & _).
    destruct (current =? destination)%Z eqn:Hcd.
    + apply Z.eqb_eq in Hcd. subst current.
      destruct (walk_back fuel source st destination []) as [q|] eqn:Hq;
        [|discriminate].
      injection H as <-.
      destruct (inv_frontier _ _ HI _ Hin) as [c Hc].
      destruct (inv_linked _ _ HI _ _ Hc) as [p Hp].
      apply (linked_walk_back_inv st destination p Hp) in Hq.
      rewrite app_nil_r in Hq. subst q.
      destruct (linked_valid [] st destination p HI Hp) as (Hvalid & c' & Hc' & Hsw).
      rewrite Hc in Hc'. injection Hc' as <-.
      right. exists p, (known_g st destination). split; [reflexivity|].
      unfold known_g at 1 2. rewrite Hc. simpl.
      split; [exact Hvalid|]. split; [exact Hsw|].
      intros Hadm es Hw.
      pose proof (popped_destination_optimal st _ HI Hadm Hpop es Hw) as Hopt.
      unfold known_g in Hopt. rewrite Hc in Hopt. exact Hopt.
    + apply Z.eqb_neq in Hcd. apply (IH _ out) in H; [exact H|].
      apply (expand_Inv st current HI Hin Hcd).
  - injection H as <-. left. split; [reflexivity|].
    apply (exhausted_unreachable st HI). now apply pop_none in Hpop.
Qed.

Lemma search_terminates (m : nat) :
  forall st,
    Inv [] st -> (measure st <= m)%nat ->
    exists N out,
      forall fuel, (N <= fuel)%nat ->
                   search heuristic G destination fuel source st = Some out.
Proof.
  induction m as [|m IH]; intros st HI Hm;
    destruct (pop heuristic destination st) as [[current rest]|] eqn:Hpop.
  - destruct (pop_spec heuristic destination st current rest Hpop) as (Hin & _ & _).
    unfold measure in Hm. destruct (frontier st); [destruct Hin|simpl in Hm; lia].
  - exists 1%nat, (Raise NoRouteFound). intros [|fuel] Hf; [lia|].
    simpl. now rewrite Hpop.
  - destruct (pop_spec heuristic destination st current rest Hpop) as (Hin & -> & _).
    destruct (Z.eq_dec current destination) as [->|Hcd].
    + destruct (inv_frontier _ _ HI _ Hin) as [c Hc].
      destruct (inv_linked _ _ HI _ _ Hc) as [p Hp].
      exists (S (List.length p)),
        (Ok {| path_nodes := p; total_distance_meters := known_g st destination |}).
      intros [|fuel] Hf; [lia|]. simpl. rewrite Hpop, Z.eqb_refl.
      rewrite (linked_walk_back st destination p Hp fuel []); [|lia].
      now rewrite app_nil_r.
    + pose proof (expand_measure st current HI Hin Hcd) as Hlt.
      destruct (IH (expand st current)) as (N & out & HN);
        [now apply expand_Inv|lia|].
      exists (S N), out. intros [|fuel] Hf; [lia|]. simpl. rewrite Hpop.
      apply Z.eqb_neq in Hcd. rewrite Hcd. apply (HN fuel). lia.
  - exists 1%nat, (Raise NoRouteFound). intros [|fuel] Hf; [lia|].
    simpl. now rewrite Hpop.
Qed.

End SearchInvariant.

(** ** [find_path]: outcomes *)

Lemma find_path_invalid (heuristic : Node -> Node -> Q) (G : Graph) (s d : Node) :
  has_node G s && has_node G d = false ->
  forall fuel, find_path heuristic fuel G s d = Some (Raise InvalidNode).
Proof. intros H fuel. unfold find_path. now rewrite H. Qed.

Lemma find_path_ends (heuristic : Node -> Node -> Q) (G : Graph) (s d : Node) :
  nonneg_lengths G ->
  has_node G s = true -> has_node G d = true ->
  exists N out,
    (forall fuel, (N <= fuel)%nat -> find_path heuristic fuel G s d = Some out) /\
    sound_outcome heuristic G s d out.
Proof.
  intros Hnn Hs Hd.
  destruct (search_terminates heuristic G s d Hnn (measure G (start s)) (start s))
    as (N & out & HN); [now apply start_Inv|lia|].
  exists N, out. split.
  - intros fuel Hf. unfold find_path. rewrite Hs, Hd. simpl. now apply HN.
  - apply (search_sound heuristic G s d Hnn N (start s) out).
    + now apply start_Inv.
    + apply HN. lia.
Qed.


Lemma valid_sequence_reachable (G : Graph) (u v : Node) (p : list Node) :
  valid_sequence G u v p -> reachable G u v.
Proof.
  intros H. destruct (valid_sequence_walk G u v p H) as (es & Hw & _). now exists es.
Qed.

Lemma zero_heuristic_admissible (G : Graph) (d : Node) :
  nonneg_lengths G -> admissible zero_heuristic G d.
Proof.
  intros Hnn. split; [intros n; unfold zero_heuristic; lra|].
  intros n es Hw. unfold zero_heuristic. apply (weight_nonneg G); auto.
  intros e He. eapply walk_edges; eauto.
Qed.

Lemma G4_nonneg : nonneg_lengths G4.
Proof.
  intros e [<-|[<-|[<-|[]]]]; unfold edge_len; simpl; lra.
Qed.

(** The scenario of the specification: the search goes A, B, C for a
    total of 150, and finds no route to the isolated node. *)
Example scenario_three_hops :
  find_path zero_heuristic 6 G4 1 3
  = Some (Ok {| path_nodes := [1; 2; 3]%Z; total_distance_meters := 150%Q |}) /\
  total_dist G4 [1; 2; 3]%Z = Ok 150%Q /\
  find_path zero_heuristic 4 G4 1 4 = Some (Raise NoRouteFound).
Proof. repeat split; reflexivity. Qed.

(** ** Claims on the search *)

(** C7. With non-negative lengths the search ends, and its outcome is
    InvalidNode exactly when the source or the destination is not a node of
    the graph, NoRouteFound exactly when both are and the destination is
    not reachable from the source, and a path result exactly when both are
    and it is reachable; no other exception comes out. *)
Theorem find_path_outcomes (heuristic : Node -> Node -> Q) (G : Graph)
  (s d : Node) :
  nonneg_lengths G ->
  exists N out,
    (forall fuel, (N <= fuel)%nat -> find_path heuristic fuel G s d = Some out) /\
    (out = Raise InvalidNode <-> has_node G s = false \/ has_node G d = false) /\
    (out = Raise NoRouteFound <->
     has_node G s = true /\ has_node G d = true /\ ~ reachable G s d) /\
    ((exists r, out = Ok r) <->
     has_node G s = true /\ has_node G d = true /\ reachable G s d) /\
    (forall e, out = Raise e -> e = InvalidNode \/ e = NoRouteFound).
Proof.
  intros Hnn.
  destruct (has_node G s) eqn:Hs; [destruct (has_node G d) eqn:Hd|].
  - destruct (find_path_ends heuristic G s d Hnn Hs Hd) as (N & out & HN & Hsound).
    exists N, out. split; [exact HN|].
    destruct Hsound as [[-> Hnr]|(p & c & -> & Hvalid & _)].
    + split; [split; [discriminate|intros [H|H]; discriminate]|].
      split; [split; [auto|reflexivity]|].
      split; [split; [intros [r Hr]; discriminate|intros (_ & _ & Hr); contradiction]|].
      intros e H. injection H as <-. now right.
    + pose proof (valid_sequence_reachable G s d p Hvalid) as Hr.
      split; [split; [discriminate|intros [H|H]; discriminate]|].
      split; [split; [discriminate|intros (_ & _ & Hnr); contradiction]|].
      split; [split; [auto|eauto]|].
      intros e H. discriminate.
  - exists 0%nat, (Raise InvalidNode). split.
    { intros fuel _. apply find_path_invalid. now rewrite Hs, Hd. }
    split; [split; auto|].
    split; [split; [discriminate|intros (_ & H & _); discriminate]|].
    split; [split; [intros [r Hr]; discriminate|intros (_ & H & _); discriminate]|].
    intros e H. injection H as <-. now left.
  - exists 0%nat, (Raise InvalidNode). split.
    { intros fuel _. apply find_path_invalid. now rewrite Hs. }
    split; [split; auto|].
    split; [split; [discriminate|intros (H & _); discriminate]|].
    split; [split; [intros [r Hr]; discriminate|intros (H & _); discriminate]|].
    intros e H. injection H as <-. now left.
Qed.

Lemma find_path_outcomes_witness :
  exists N out,
    (forall fuel, (N <= fuel)%nat ->
                  find_path zero_heuristic fuel G4 1 4 = Some out) /\
    (out = Raise InvalidNode <-> has_node G4 1 = false \/ has_node G4 4 = false) /\
    (out = Raise NoRouteFound <->
     has_node G4 1 = true /\ has_node G4 4 = true /\ ~ reachable G4 1 4) /\
    ((exists r, out = Ok r) <->
     has_node G4 1 = true /\ has_node G4 4 = true /\ reachable G4 1 4) /\
    (forall e, out = Raise e -> e = InvalidNode \/ e = NoRouteFound).
Proof.
  apply (find_path_outcomes zero_heuristic G4 1 4). exact G4_nonneg.
Defined.



(** C6, the claim as stated fails: asked for a route from node 1 to
    itself, the program reports the one-node path and a total of 0, and
    prints no step at all, not one Start step. *)
Lemma same_node_route_has_no_step :
  route zero_heuristic 2 G4 1 1
  = Some (Ok {| route_path := [1]%Z; route_total := 0%Q; route_steps := [] |}) /\
  directions G4 [1]%Z = Ok [] /\
  List.length (@nil Step) <> 1%nat.
Proof. split; [reflexivity|]. split; [reflexivity|]. discriminate. Qed.

(** C6, amended. When the source is a node of the graph and equals the
    destination, the search returns the one-node path with total 0, the
    distance total of that path is 0, and the directions loop yields no
    step. *)
Theorem same_node_query (heuristic : Node -> Node -> Q) (G : Graph) (s : Node)
  (fuel : nat) :
  has_node G s = true ->
  find_path heuristic (S (S fuel)) G s s
  = Some (Ok {| path_nodes := [s]; total_distance_meters := 0%Q |}) /\
  total_dist G [s] = Ok 0%Q /\
  directions G [s] = Ok [].
Proof.
  intros Hs. split; [|split; reflexivity].
  unfold find_path. rewrite Hs. simpl.
  rewrite Z.eqb_refl. unfold known_g, start, update. simpl.
  now rewrite Z.eqb_refl.
Qed.

Lemma same_node_query_witness :
  find_path zero_heuristic 2 G4 1 1
  = Some (Ok {| path_nodes := [1]%Z; total_distance_meters := 0%Q |}) /\
  total_dist G4 [1]%Z = Ok 0%Q /\
  directions G4 [1]%Z = Ok [].
Proof. apply (same_node_query zero_heuristic G4 1 0). reflexivity. Defined.

(** ** The reported total against the cost of the search *)

Lemma get_edge_length_cheapest (G : Graph) (u v : Node) :
  first_seen_cheapest G -> get_edge_length G u v = Ok (hop_cost G (u, v)).
Proof.
  intros [_ Hfirst]. rewrite get_edge_length_hop_edge. unfold hop_cost, edge_between.
  simpl. destruct (filter (joins u v) (edges G)) as [|e rest] eqn:Hf.
  - now rewrite (hop_edge_none G u v Hf).
  - rewrite (hop_edge_first G u v e rest Hf). simpl.
    rewrite (cheapest_first e rest (Hfirst u v e rest Hf)). reflexivity.
Qed.

Lemma total_dist_seq_weight (G : Graph) (p : list Node) :
  first_seen_cheapest G -> total_dist G p = Ok (seq_weight G p).
Proof.
  intros Hf. unfold total_dist, seq_weight.
  assert (Hm : mapM (fun uv => get_edge_length G (fst uv) (snd uv)) (hops p)
               = Ok (map (hop_cost G) (hops p))).
  { induction (hops p) as [|[u v] l IH]; [reflexivity|].
    cbn [mapM map fst snd]. rewrite (get_edge_length_cheapest G u v Hf).
    cbn [bind]. now rewrite IH. }
  now rewrite Hm.
Qed.

Lemma G_parallel_nonneg : nonneg_lengths G_parallel.
Proof.
  intros e [<-|[<-|[<-|[<-|[]]]]]; unfold edge_len; simpl; lra.
Qed.

(** C1, the claim as stated fails: on two parallel edges from 1 to 2, of
    10 m (inserted first) and 1 m, with a 2 m + 2 m detour through 3, the
    search returns the path 1, 2 with an accumulated cost of 1, while the
    program totals 10 for it: more than the 4 of the sequence 1, 3, 2, and
    not the cost the search finalized. *)
Lemma reported_total_exceeds_detour :
  nonneg_lengths G_parallel /\
  admissible zero_heuristic G_parallel 2 /\
  find_path zero_heuristic 4 G_parallel 1 2
  = Some (Ok {| path_nodes := [1; 2]%Z; total_distance_meters := 1%Q |}) /\
  total_dist G_parallel [1; 2]%Z = Ok 10%Q /\
  valid_sequence G_parallel 1 2 [1; 3; 2]%Z /\
  seq_weight G_parallel [1; 3; 2]%Z = 4%Q /\
  ~ (10 <= 4)%Q /\ ~ (10 == 1)%Q.
Proof.
  split; [exact G_parallel_nonneg|].
  split; [apply zero_heuristic_admissible, G_parallel_nonneg|].
  split; [reflexivity|]. split; [reflexivity|].
  split.
  { split; [reflexivity|]. split; [reflexivity|].
    intros a b Hin. simpl in Hin.
    destruct Hin as [H|[H|[]]]; injection H as <- <-; intros Hn;
      vm_compute in Hn; discriminate Hn. }
  split; [reflexivity|].
  split; lra.
Qed.

(** C1, amended. When lengths are non-negative, every edge carries a
    length, the first-seen edge of every pair is a cheapest one, the
    heuristic never overestimates, and the destination is reachable from
    the source, the search returns a valid node sequence whose reported
    total equals the accumulated cost the search finalized for the
    destination and is at most the weight of any valid node sequence from
    the source to the destination. *)
Theorem reported_total_is_optimal (heuristic : Node -> Node -> Q) (G : Graph)
  (s d : Node) :
  nonneg_lengths G -> first_seen_cheapest G -> admissible heuristic G d ->
  has_node G s = true -> has_node G d = true -> reachable G s d ->
  exists N r total,
    (forall fuel, (N <= fuel)%nat ->
                  find_path heuristic fuel G s d = Some (Ok r)) /\
    valid_sequence G s d (path_nodes r) /\
    total_dist G (path_nodes r) = Ok total /\
    (total == total_distance_meters r)%Q /\
    (forall p, valid_sequence G s d p -> (total <= seq_weight G p)%Q).
Proof.
  intros Hnn Hfirst Hadm Hs Hd Hreach.
  destruct (find_path_ends heuristic G s d Hnn Hs Hd) as (N & out & HN & Hsound).
  destruct Hsound as [[_ Hnr]|(p & c & -> & Hvalid & Hsw & Hopt)]; [contradiction|].
  specialize (Hopt Hadm).
  exists N, {| path_nodes := p; total_distance_meters := c |}, (seq_weight G p).
  split; [exact HN|]. simpl. split; [exact Hvalid|].
  split; [now apply total_dist_seq_weight|].
  assert (Hall : forall q, valid_sequence G s d q -> (c <= seq_weight G q)%Q).
  { intros q Hq. destruct (valid_sequence_walk G s d q Hq) as (es & Hw & Hwt).
    rewrite <- Hwt. now apply Hopt. }
  split.
  - pose proof (Hall p Hvalid). lra.
  - intros q Hq. pose proof (Hall q Hq). lra.
Qed.

Lemma G4_first_seen_cheapest : first_seen_cheapest G4.
Proof.
  split.
  - intros e [<-|[<-|[<-|[]]]]; discriminate.
  - intros u v e rest Hf e' He'.
    cbv [G4 edges filter joins mk_edge e_from e_to] in Hf.
    destruct (Z.eqb_spec 1 u), (Z.eqb_spec 2 v), (Z.eqb_spec 2 u), (Z.eqb_spec 3 v);
      try lia; simpl in Hf; try discriminate Hf;
      injection Hf as <- <-; destruct He'.
Qed.

Lemma reported_total_is_optimal_witness :
  exists N r total,
    (forall fuel, (N <= fuel)%nat ->
                  find_path zero_heuristic fuel G4 1 3 = Some (Ok r)) /\
    valid_sequence G4 1 3 (path_nodes r) /\
    total_dist G4 (path_nodes r) = Ok total /\
    (total == total_distance_meters r)%Q /\
    (forall p, valid_sequence G4 1 3 p -> (total <= seq_weight G4 p)%Q).
Proof.
  apply (reported_total_is_optimal zero_heuristic G4 1 3).
  - exact G4_nonneg.
  - exact G4_first_seen_cheapest.
  - apply zero_heuristic_admissible. exact G4_nonneg.
  - reflexivity.
  - reflexivity.
  - exists [mk_edge 1 3 0 200 "c"].
    apply (walk_one G4 (mk_edge 1 3 0 200 "c")). simpl. auto.
Defined.

(** * The rest of the program *)

(** ** Characters *)

Ltac by_all_chars c :=
  destruct c as [[] [] [] [] [] [] [] []]; vm_compute; reflexivity.

Lemma title_step_lower (b : bool) (c : ascii) :
  title_step b (char_lower c) = title_step b c.
Proof. destruct b; by_all_chars c. Qed.

Lemma lower_title_step (b : bool) (c : ascii) :
  char_lower (fst (title_step b c)) = char_lower c.
Proof. destruct b; by_all_chars c. Qed.

Lemma str_eqb_eq (a b : str) : str_eqb a b = true <-> a = b.
Proof.
  unfold str_eqb. destruct (list_eq_dec ascii_dec a b); split; congruence.
Qed.

(** ** [strip], [lower], [title] and [in] *)

Lemma lstrip_suffix (s : str) :
  exists spaces, s = spaces ++ lstrip s /\ forallb isspace spaces = true.
Proof.
  induction s as [|c s (sp & Hs & Hsp)]; [now exists []|].
  simpl. destruct (isspace c) eqn:E.
  - exists (c :: sp). simpl. rewrite E, Hsp. split; [now f_equal|reflexivity].
  - now exists [].
Qed.

Lemma lstrip_head (s : str) (c : ascii) (t : str) :
  lstrip s = c :: t -> isspace c = false.
Proof.
  induction s as [|a s IH]; simpl; [discriminate|].
  destruct (isspace a) eqn:E; [exact IH|].
  intros H. injection H as <- _. exact E.
Qed.

Lemma lstrip_fixed (s : str) :
  (forall c t, s = c :: t -> isspace c = false) -> lstrip s = s.
Proof.
  destruct s as [|c t]; [reflexivity|]. intros H. simpl.
  now rewrite (H c t eq_refl).
Qed.

Lemma lstrip_lstrip (s : str) : lstrip (lstrip s) = lstrip s.
Proof. apply lstrip_fixed. intros c t H. now apply lstrip_head in H. Qed.

Lemma rstrip_rstrip (s : str) : rstrip (rstrip s) = rstrip s.
Proof. unfold rstrip. now rewrite rev_involutive, lstrip_lstrip. Qed.

Lemma rstrip_keeps_head (s : str) :
  (forall c t, s = c :: t -> isspace c = false) ->
  forall c t, rstrip s = c :: t -> isspace c = false.
Proof.
  intros Hs c t Hr. unfold rstrip in Hr.
  destruct (lstrip_suffix (rev s)) as (sp & Hsplit & _).
  apply (f_equal (@rev ascii)) in Hsplit.
  rewrite rev_involutive, rev_app_distr, Hr in Hsplit.
  simpl in Hsplit. now apply (Hs c _ Hsplit).
Qed.

Lemma rstrip_snoc (s : str) (c : ascii) :
  isspace c = false -> rstrip (s ++ [c]) = s ++ [c].
Proof.
  intros Hc. unfold rstrip. rewrite rev_app_distr. simpl. rewrite Hc.
  change (c :: rev s) with (rev [c] ++ rev s).
  now rewrite <- rev_app_distr, rev_involutive.
Qed.

Lemma strip_head (s : str) (c : ascii) (t : str) :
  strip s = c :: t -> isspace c = false.
Proof.
  unfold strip. apply rstrip_keeps_head. intros a u H. now apply lstrip_head in H.
Qed.

Lemma strip_strip (s : str) : strip (strip s) = strip s.
Proof.
  unfold strip at 1. rewrite (lstrip_fixed (strip s)).
  - unfold strip. apply rstrip_rstrip.
  - intros c t H. now apply strip_head in H.
Qed.

Lemma lower_app (a b : str) : lower (a ++ b) = lower a ++ lower b.
Proof. apply map_app. Qed.

Lemma contains_suffix (sub a b : str) :
  contains sub b = true -> contains sub (a ++ b) = true.
Proof.
  intros H. induction a as [|c a IH]; [exact H|].
  simpl. rewrite IH. apply orb_true_r.
Qed.

Lemma lower_title_from (b : bool) (s : str) : lower (title_from b s) = lower s.
Proof.
  revert b. induction s as [|c s IH]; intros b; [reflexivity|].
  simpl. pose proof (lower_title_step b c) as Hc.
  destruct (title_step b c) as [c' cased]. simpl in *. now rewrite Hc, IH.
Qed.

Lemma title_from_lower (b : bool) (s : str) :
  title_from b (lower s) = title_from b s.
Proof.
  revert b. induction s as [|c s IH]; intros b; [reflexivity|].
  simpl. rewrite title_step_lower.
  destruct (title_step b c) as [c' cased]. now rewrite IH.
Qed.

Lemma title_matches (s t : str) :
  title t = t -> (title s = t <-> lower s = lower t).
Proof.
  intros Ht. unfold title in *. split; intros H.
  - rewrite <- H. symmetry. apply lower_title_from.
  - rewrite <- (title_from_lower false s), H, title_from_lower. exact Ht.
Qed.

(** ** [normalize_nepal_query] *)

Lemma normalized_mentions_nepal (q : str) :
  contains (lit "nepal") (lower (normalize_nepal_query q)) = true.
Proof.
  unfold normalize_nepal_query.
  destruct (contains (lit "nepal") (lower (strip q))) eqn:E; [exact E|].
  rewrite lower_app. now apply contains_suffix.
Qed.

Lemma normalized_is_stripped (q : str) :
  strip (normalize_nepal_query q) = normalize_nepal_query q.
Proof.
  unfold normalize_nepal_query.
  destruct (contains (lit "nepal") (lower (strip q))); [apply strip_strip|].
  unfold strip at 1. rewrite (lstrip_fixed (strip q ++ lit ", Nepal")).
  - change (lit ", Nepal") with (lit ", Nepa" ++ [("l")%char]).
    rewrite app_assoc. now apply rstrip_snoc.
  - intros c t H. destruct (strip q) as [|c0 t0] eqn:Hs.
    + simpl in H. now injection H as <- _.
    + simpl in H. injection H as <- _. now apply (strip_head q c0 t0).
Qed.

(** Normalizing twice is normalizing once: a normalized query has no
    white space at either end and mentions Nepal, in whatever case. *)
Theorem normalize_nepal_query_idempotent (q : str) :
  normalize_nepal_query (normalize_nepal_query q) = normalize_nepal_query q /\
  strip (normalize_nepal_query q) = normalize_nepal_query q /\
  contains (lit "nepal") (lower (normalize_nepal_query q)) = true.
Proof.
  split; [|split; [apply normalized_is_stripped|apply normalized_mentions_nepal]].
  unfold normalize_nepal_query at 1.
  now rewrite normalized_is_stripped, normalized_mentions_nepal.
Qed.

(** ** The course recommendation *)

Lemma interest_in_In (x : str) (l : list str) : interest_in x l = true <-> In x l.
Proof.
  unfold interest_in. rewrite existsb_exists. split.
  - intros (y & Hy & He). apply str_eqb_eq in He. now subst.
  - intros H. exists x. split; [exact H|]. now apply str_eqb_eq.
Qed.

Lemma interest_in_same (x : str) (l1 l2 : list str) :
  (In x l1 <-> In x l2) -> interest_in x l1 = interest_in x l2.
Proof.
  intros H. destruct (interest_in x l1) eqn:E1, (interest_in x l2) eqn:E2;
    try reflexivity.
  - apply interest_in_In, H, interest_in_In in E1. congruence.
  - apply interest_in_In, H, interest_in_In in E2. congruence.
Qed.

Lemma recommend_course_rules (student_interests : list str) :
  (recommend_course student_interests = "Python"%string <->
   In (lit "Math") student_interests) /\
  (recommend_course student_interests = "Biotechnology"%string <->
   ~ In (lit "Math") student_interests /\ In (lit "Biology") student_interests) /\
  (recommend_course student_interests = "Content Creation"%string <->
   ~ In (lit "Math") student_interests /\ ~ In (lit "Biology") student_interests /\
   In (lit "Writing") student_interests) /\
  (recommend_course student_interests = "General Studies"%string <->
   ~ In (lit "Math") student_interests /\ ~ In (lit "Biology") student_interests /\
   ~ In (lit "Writing") student_interests).
Proof.
  assert (Hm := interest_in_In (lit "Math") student_interests).
  assert (Hb := interest_in_In (lit "Biology") student_interests).
  assert (Hw := interest_in_In (lit "Writing") student_interests).
  unfold recommend_course.
  rewrite <- Hm, <- Hb, <- Hw.
  destruct (interest_in (lit "Math") student_interests);
    destruct (interest_in (lit "Biology") student_interests);
    destruct (interest_in (lit "Writing") student_interests);
    intuition (try discriminate; try congruence).
Qed.

(** The recommendation is decided by the first of Math, Biology and
    Writing that occurs among the interests, wherever and however often it
    occurs, and is General Studies when none does; two interest lists with
    the same members get the same recommendation. *)
Theorem recommend_course_by_membership (student_interests : list str) :
  (recommend_course student_interests = "Python"%string <->
   In (lit "Math") student_interests) /\
  (recommend_course student_interests = "Biotechnology"%string <->
   ~ In (lit "Math") student_interests /\ In (lit "Biology") student_interests) /\
  (recommend_course student_interests = "Content Creation"%string <->
   ~ In (lit "Math") student_interests /\ ~ In (lit "Biology") student_interests /\
   In (lit "Writing") student_interests) /\
  (recommend_course student_interests = "General Studies"%string <->
   ~ In (lit "Math") student_interests /\ ~ In (lit "Biology") student_interests /\
   ~ In (lit "Writing") student_interests) /\
  (forall other,
      (forall x, In x student_interests <-> In x other) ->
      recommend_course other = recommend_course student_interests).
Proof.
  destruct (recommend_course_rules student_interests) as (H1 & H2 & H3 & H4).
  repeat (split; [assumption|]).
  intros other Hsame. unfold recommend_course.
  rewrite <- (interest_in_same (lit "Math") _ _ (Hsame _)).
  rewrite <- (interest_in_same (lit "Biology") _ _ (Hsame _)).
  now rewrite <- (interest_in_same (lit "Writing") _ _ (Hsame _)).
Qed.

(** Whatever the case of the letters typed and the white space around
    them, the line gets Python exactly when it spells math, Biotechnology
    when it spells biology, Content Creation when it spells writing, and
    General Studies in every other case. *)
Theorem recommendation_ignores_case_and_padding (typed : str) :
  (recommendation_for typed = "Python"%string <->
   lower (strip typed) = lit "math") /\
  (recommendation_for typed = "Biotechnology"%string <->
   lower (strip typed) = lit "biology") /\
  (recommendation_for typed = "Content Creation"%string <->
   lower (strip typed) = lit "writing") /\
  (recommendation_for typed = "General Studies"%string <->
   lower (strip typed) <> lit "math" /\ lower (strip typed) <> lit "biology" /\
   lower (strip typed) <> lit "writing").
Proof.
  pose proof (title_matches (strip typed) (lit "Math") eq_refl) as Hm.
  pose proof (title_matches (strip typed) (lit "Biology") eq_refl) as Hb.
  pose proof (title_matches (strip typed) (lit "Writing") eq_refl) as Hw.
  change (lower (lit "Math")) with (lit "math") in Hm.
  change (lower (lit "Biology")) with (lit "biology") in Hb.
  change (lower (lit "Writing")) with (lit "writing") in Hw.
  destruct (recommend_course_rules [title (strip typed)])
    as (Hp & Hbio & Hc & Hg).
  unfold recommendation_for.
  assert (Hone : forall x : str, In x [title (strip typed)] <-> title (strip typed) = x).
  { intros x. simpl. tauto. }
  rewrite Hp, Hbio, Hc, Hg, !Hone, Hm, Hb, Hw.
  assert (D1 : lit "biology" <> lit "math") by discriminate.
  assert (D2 : lit "writing" <> lit "math") by discriminate.
  assert (D3 : lit "writing" <> lit "biology") by discriminate.
  intuition congruence.
Qed.

(** ** Route coordinates and markers *)

Lemma last_default {A : Type} (l : list A) (b c d : A) :
  last (b :: l) c = last (b :: l) d.
Proof.
  revert b. induction l as [|a l IH]; intros b; [reflexivity|].
  change (last (a :: l) c = last (a :: l) d). apply IH.
Qed.

Lemma nth_error_last {A : Type} (c : A) (cs : list A) :
  nth_error (c :: cs) (List.length cs) = Some (last cs c).
Proof.
  revert c. induction cs as [|a cs IH]; intros c; [reflexivity|].
  change (nth_error (a :: cs) (List.length cs) = Some (last (a :: cs) c)).
  rewrite IH. f_equal. destruct cs as [|b cs]; [reflexivity|].
  change (last (b :: cs) a = last (b :: cs) c). apply last_default.
Qed.

Lemma list_at_nth {A : Type} (l : list A) (i : nat) (a : A) :
  nth_error l i = Some a -> list_at l i = Ok a.
Proof. unfold list_at. now intros ->. Qed.

(** The coordinate list has one entry per node of the path, in the order
    of the path; for a path of graph nodes with at least one node, the
    centre of the map, the start marker and the end marker are all found,
    at the middle, the first and the last position. *)
Theorem route_coords_follow_path (G : Graph) (path : list Node) :
  on_graph G path ->
  exists coords,
    route_coords G path = Ok coords /\
    List.length coords = List.length path /\
    (forall k n,
        nth_error path k = Some n ->
        exists d, node_lookup (nodes G) n = Ok d /\
                  nth_error coords k = Some (node_y d, node_x d)) /\
    (path <> [] ->
     exists first middle final,
       start_marker coords = Ok first /\
       map_centre coords = Ok middle /\
       end_marker coords = Ok final /\
       nth_error coords 0 = Some first /\
       nth_error coords (List.length path / 2) = Some middle /\
       nth_error coords (List.length path - 1) = Some final).
Proof.
  intros Hg. unfold route_coords.
  destruct (mapM_total
              (fun n => d <- node_lookup (nodes G) n ;; Ok (node_y d, node_x d)) path)
    as [coords Hc].
  { intros n Hn. unfold on_graph in Hg. rewrite Forall_forall in Hg.
    destruct (has_node_lookup G n (Hg n Hn)) as [d Hd]. rewrite Hd. simpl. eauto. }
  exists coords. split; [exact Hc|].
  pose proof (mapM_length _ _ _ Hc) as Hlen. split; [exact Hlen|]. split.
  - intros k n Hk. destruct (mapM_nth _ _ _ Hc k n Hk) as (c & Hck & Hcn).
    destruct (node_lookup (nodes G) n) as [d|]; simpl in Hcn; [|discriminate].
    injection Hcn as <-. now exists d.
  - intros Hne.
    assert (Hpos : (0 < List.length coords)%nat).
    { rewrite Hlen. destruct path; [contradiction|simpl; lia]. }
    destruct coords as [|c cs]; [simpl in Hpos; lia|].
    assert (Hmid : (List.length (c :: cs) / 2 < List.length (c :: cs))%nat)
      by (apply Nat.div_lt; lia).
    destruct (nth_error (c :: cs) (List.length (c :: cs) / 2)) as [m|] eqn:Hm;
      [|apply nth_error_None in Hm; lia].
    exists c, m, (last cs c). rewrite <- Hlen.
    split; [reflexivity|]. split; [now apply list_at_nth|].
    split; [reflexivity|]. split; [reflexivity|]. split; [exact Hm|].
    simpl List.length. rewrite Nat.sub_succ, Nat.sub_0_r. apply nth_error_last.
Qed.

Lemma route_coords_follow_path_witness :
  exists coords,
    route_coords G4 [1; 2; 3]%Z = Ok coords /\
    List.length coords = 3%nat /\
    (forall k n,
        nth_error [1; 2; 3]%Z k = Some n ->
        exists d, node_lookup (nodes G4) n = Ok d /\
                  nth_error coords k = Some (node_y d, node_x d)) /\
    ([1; 2; 3]%Z <> [] ->
     exists first middle final,
       start_marker coords = Ok first /\
       map_centre coords = Ok middle /\
       end_marker coords = Ok final /\
       nth_error coords 0 = Some first /\
       nth_error coords 1 = Some middle /\
       nth_error coords 2 = Some final).
Proof.
  apply (route_coords_follow_path G4 [1; 2; 3]%Z). repeat constructor.
Defined.

Lemma nth_error_inner {A : Type} (l : list A) (k : nat) :
  nth_error (removelast (tl l)) k
  = if (S (S k) <? List.length l)%nat then nth_error l (S k) else None.
Proof.
  rewrite removelast_firstn_len, nth_error_firstn.
  destruct l as [|a l]; [now destruct k|]. simpl tl. simpl List.length.
  destruct l as [|b l]; [now destruct k|]. simpl List.length. simpl pred.
  destruct (Nat.ltb_spec k (List.length l)), (Nat.ltb_spec (S (S k)) (S (S (List.length l))));
    try lia; reflexivity.
Qed.

(** The step markers are numbered from 1 and the marker numbered [i] sits
    on [coords[i]]: every coordinate but the first and the last gets one,
    so there are [len(coords) - 2] of them, none for fewer than three
    coordinates. *)
Theorem step_markers_between (coords : list Coord) :
  List.length (step_markers coords) = (List.length coords - 2)%nat /\
  (forall i c,
      In (i, c) (step_markers coords) <->
      (1 <= i)%nat /\ (S i < List.length coords)%nat /\
      nth_error coords i = Some c).
Proof.
  unfold step_markers. split.
  - unfold enumerate1. rewrite length_combine, length_seq, Nat.min_id.
    rewrite removelast_firstn_len, length_firstn.
    destruct coords as [|a [|b l]]; simpl; lia.
  - intros i c. split.
    + intros Hin. apply enumerate1_in in Hin. destruct Hin as (k & -> & Hk).
      rewrite nth_error_inner in Hk.
      destruct (Nat.ltb_spec (S (S k)) (List.length coords)); [|discriminate].
      repeat split; [lia|lia|exact Hk].
    + intros (Hi & Hlt & Hc). destruct i as [|k]; [lia|].
      apply (nth_error_In _ k). apply enumerate1_nth.
      rewrite nth_error_inner.
      destruct (Nat.ltb_spec (S (S k)) (List.length coords)); [exact Hc|lia].
Qed.

(** ** Labels of the important places *)

Section PlaceLabelFacts.

Variable char : Type.
Variable ellipsis : char.
Variable geometry : Type.
Variable centroid_latlon : geometry -> option Coord.

Lemma place_label_short (nm : list char) :
  (List.length nm <= 45)%nat -> place_label ellipsis nm = nm.
Proof.
  intros H. unfold place_label.
  replace (45 <? List.length nm)%nat with false
    by (symmetry; apply Nat.ltb_ge; lia).
  now rewrite app_nil_r, firstn_all2.
Qed.

Lemma place_label_long (nm : list char) :
  (45 < List.length nm)%nat ->
  place_label ellipsis nm = firstn 45 nm ++ [ellipsis].
Proof.
  intros H. unfold place_label.
  now replace (45 <? List.length nm)%nat with true
    by (symmetry; apply Nat.ltb_lt; lia).
Qed.

Lemma place_label_length (nm : list char) :
  (List.length (place_label ellipsis nm) <= 46)%nat /\
  (nm <> [] -> place_label ellipsis nm <> []).
Proof.
  unfold place_label. split.
  - rewrite length_app, length_firstn.
    pose proof (Nat.le_min_l 45 (List.length nm)).
    destruct (45 <? List.length nm)%nat; cbn [List.length]; lia.
  - intros Hne Hl. apply app_eq_nil in Hl. destruct Hl as [Hf _].
    destruct nm; [contradiction|discriminate].
Qed.

(** Every marker the loop adds comes from a row that has a geometry, a
    centroid and a non-empty name; its label is never empty and never longer
    than 46 characters: the name itself up to 45 characters, its first 45
    followed by the ellipsis beyond. *)
Theorem place_markers_labelled (rows : list (PlaceRow char geometry))
  (pt : Coord) (label : list char) :
  In (pt, label) (place_markers ellipsis centroid_latlon rows) ->
  label <> [] /\ (List.length label <= 46)%nat /\
  exists row geom nm,
    In row rows /\ row_geometry row = Some geom /\
    centroid_latlon geom = Some pt /\ row_name row = Some nm /\ nm <> [] /\
    ((List.length nm <= 45)%nat -> label = nm) /\
    ((45 < List.length nm)%nat -> label = firstn 45 nm ++ [ellipsis]).
Proof.
  induction rows as [|row rows IH]; intros Hin; [destruct Hin|].
  assert (Hrest : In (pt, label) (place_markers ellipsis centroid_latlon rows) ->
                  label <> [] /\ (List.length label <= 46)%nat /\
                  exists row0 geom nm,
                    In row0 (row :: rows) /\ row_geometry row0 = Some geom /\
                    centroid_latlon geom = Some pt /\ row_name row0 = Some nm /\
                    nm <> [] /\
                    ((List.length nm <= 45)%nat -> label = nm) /\
                    ((45 < List.length nm)%nat -> label = firstn 45 nm ++ [ellipsis])).
  { intros H. destruct (IH H) as (H1 & H2 & row0 & geom & nm & Hr & Hrest).
    split; [exact H1|]. split; [exact H2|].
    exists row0, geom, nm. split; [now right|exact Hrest]. }
  simpl in Hin.
  destruct (row_geometry row) as [geom|] eqn:Hg; [|auto].
  destruct (centroid_latlon geom) as [p|] eqn:Hp; [|auto].
  destruct (row_name row) as [nm|] eqn:Hn; simpl in Hin; [|auto].
  destruct nm as [|c nm]; [auto|].
  destruct Hin as [Heq|Hin]; [|auto].
  injection Heq as <- <-.
  destruct (place_label_length (c :: nm)) as [Hlen Hne].
  split; [apply Hne; discriminate|]. split; [exact Hlen|].
  exists row, geom, (c :: nm).
  split; [now left|]. split; [exact Hg|]. split; [exact Hp|]. split; [exact Hn|].
  split; [discriminate|]. split.
  - apply place_label_short.
  - apply place_label_long.
Qed.

End PlaceLabelFacts.

Lemma place_markers_labelled_witness :
  lit "Chowk" <> [] /\ (List.length (lit "Chowk") <= 46)%nat /\
  exists row geom nm,
    In row [ {| row_geometry := Some (1%R, 2%R); row_name := Some (lit "Chowk") |} ] /\
    row_geometry row = Some geom /\
    Some geom = Some (1%R, 2%R) /\ row_name row = Some nm /\ nm <> [] /\
    ((List.length nm <= 45)%nat -> lit "Chowk" = nm) /\
    ((45 < List.length nm)%nat -> lit "Chowk" = firstn 45 nm ++ ["."%char]).
Proof.
  apply (place_markers_labelled ascii "."%char Coord (fun g => Some g)
           [ {| row_geometry := Some (1%R, 2%R); row_name := Some (lit "Chowk") |} ]
           (1%R, 2%R) (lit "Chowk")).
  left. reflexivity.
Defined.

(** ** [esc] *)

Definition needs_escape (x : ascii) : bool :=
  Ascii.eqb x "&" || Ascii.eqb x "<" || Ascii.eqb x ">" ||
  Ascii.eqb x double_quote || Ascii.eqb x "'".

Lemma replace_all_app (c : ascii) (r a b : str) :
  replace_all c r (a ++ b) = replace_all c r a ++ replace_all c r b.
Proof. unfold replace_all. apply flat_map_app. Qed.

Lemma esc_app (a b : str) : esc (a ++ b) = esc a ++ esc b.
Proof. unfold esc. now rewrite !replace_all_app. Qed.

Lemma esc_cons (x : ascii) (s : str) : esc (x :: s) = esc [x] ++ esc s.
Proof. change (x :: s) with ([x] ++ s). apply esc_app. Qed.

Lemma esc_one (x : ascii) :
  (needs_escape x = false /\ esc [x] = [x]) \/
  (x = "&"%char /\ esc [x] = lit "&amp;") \/
  (x = "<"%char /\ esc [x] = lit "&lt;") \/
  (x = ">"%char /\ esc [x] = lit "&gt;") \/
  (x = double_quote /\ esc [x] = lit "&quot;") \/
  (x = "'"%char /\ esc [x] = lit "&#39;").
Proof.
  destruct x as [[] [] [] [] [] [] [] []];
    first [ left; split; reflexivity
          | right; left; split; reflexivity
          | right; right; left; split; reflexivity
          | right; right; right; left; split; reflexivity
          | right; right; right; right; left; split; reflexivity
          | right; right; right; right; right; split; reflexivity ].
Qed.

Ltac esc_cases x H :=
  destruct (esc_one x)
    as [[? H]|[[-> H]|[[-> H]|[[-> H]|[[-> H]|[-> H]]]]]].

Lemma esc_one_nonempty (x : ascii) : esc [x] <> [].
Proof. esc_cases x H; rewrite H; discriminate. Qed.

Lemma esc_one_prefix_free (x y : ascii) (r1 r2 : str) :
  esc [x] ++ r1 = esc [y] ++ r2 -> x = y /\ r1 = r2.
Proof.
  esc_cases x Hx; esc_cases y Hy; rewrite ?Hx, ?Hy; intros Heq.
  all: try (apply app_inv_head in Heq; split; [reflexivity|exact Heq]).
  all: cbv [lit list_ascii_of_string app] in Heq.
  all: try discriminate Heq.
  - injection Heq as -> ->. auto.
  - injection Heq as Hc _. rewrite Hc in H. vm_compute in H. discriminate H.
  - injection Heq as Hc _. rewrite Hc in H. vm_compute in H. discriminate H.
  - injection Heq as Hc _. rewrite Hc in H. vm_compute in H. discriminate H.
  - injection Heq as Hc _. rewrite Hc in H. vm_compute in H. discriminate H.
  - injection Heq as Hc _. rewrite Hc in H. vm_compute in H. discriminate H.
  - injection Heq as Hc _. rewrite <- Hc in H. vm_compute in H. discriminate H.
  - injection Heq as Hc _. rewrite <- Hc in H. vm_compute in H. discriminate H.
  - injection Heq as Hc _. rewrite <- Hc in H. vm_compute in H. discriminate H.
  - injection Heq as Hc _. rewrite <- Hc in H. vm_compute in H. discriminate H.
  - injection Heq as Hc _. rewrite <- Hc in H. vm_compute in H. discriminate H.
Qed.

Definition is_markup (c : ascii) : bool :=
  Ascii.eqb c "<" || Ascii.eqb c ">" || Ascii.eqb c double_quote || Ascii.eqb c "'".

Lemma is_markup_false (c : ascii) :
  is_markup c = false ->
  c <> "<"%char /\ c <> ">"%char /\ c <> double_quote /\ c <> "'"%char.
Proof.
  intros H.
  split; [|split; [|split]]; intros Hc; rewrite Hc in H; vm_compute in H;
    discriminate H.
Qed.

Lemma no_markup_check (l : str) :
  forallb (fun c => negb (is_markup c)) l = true ->
  Forall (fun c => c <> "<"%char /\ c <> ">"%char /\
                   c <> double_quote /\ c <> "'"%char) l.
Proof.
  intros H. apply Forall_forall. intros c Hc.
  rewrite forallb_forall in H. specialize (H c Hc).
  apply is_markup_false. now apply negb_true_iff in H.
Qed.

Lemma needs_escape_markup (x : ascii) :
  needs_escape x = false -> is_markup x = false.
Proof.
  unfold needs_escape, is_markup. intros H.
  repeat (apply orb_false_elim in H; destruct H as [H ?]).
  repeat (apply orb_false_intro; [|assumption]). assumption.
Qed.

(** The escaped text holds none of the characters [<], [>], the double
    quote and the single quote. *)
Theorem esc_leaves_no_markup (s : str) :
  Forall (fun c => c <> "<"%char /\ c <> ">"%char /\
                   c <> double_quote /\ c <> "'"%char) (esc s).
Proof.
  induction s as [|x s IH]; [constructor|].
  rewrite esc_cons. apply Forall_app. split; [|exact IH].
  apply no_markup_check.
  esc_cases x H; rewrite H; [|reflexivity..].
  simpl. now rewrite (needs_escape_markup x) by assumption.
Qed.

(** Two texts with the same escaped form are the same text: escaping
    loses nothing of what was typed. *)
Theorem esc_injective (a b : str) : esc a = esc b -> a = b.
Proof.
  revert b. induction a as [|x a IH]; intros [|y b] H.
  - reflexivity.
  - rewrite (esc_cons y b) in H. symmetry in H. apply app_eq_nil in H.
    destruct H as [H _]. apply esc_one_nonempty in H. contradiction.
  - rewrite (esc_cons x a) in H. apply app_eq_nil in H.
    destruct H as [H _]. apply esc_one_nonempty in H. contradiction.
  - rewrite (esc_cons x a), (esc_cons y b) in H. apply esc_one_prefix_free in H.
    destruct H as [-> H]. f_equal. now apply IH.
Qed.

Lemma esc_injective_witness : lit "a<b" = lit "a<b".
Proof. apply (esc_injective (lit "a<b") (lit "a<b")). reflexivity. Defined.

(** ** The distance total of a longer path *)

Lemma mapM_snoc {A B : Type} (f : A -> Result B) (l : list A) (x : A) :
  mapM f (l ++ [x]) = (bs <- mapM f l ;; b <- f x ;; Ok (bs ++ [b])).
Proof.
  induction l as [|a l IH]; simpl.
  - now destruct (f x).
  - destruct (f a) as [b0|]; simpl; [|reflexivity]. rewrite IH.
    destruct (mapM f l) as [bs|]; simpl; [|reflexivity].
    now destruct (f x).
Qed.

(** Going one node further adds the looked-up length of the new hop to
    the total of the path so far. *)
Theorem total_dist_extend (G : Graph) (path : list Node) (v d : Node) :
  path <> [] ->
  total_dist G (path ++ [v])
  = (t <- total_dist G path ;;
     l <- get_edge_length G (last path d) v ;;
     Ok (t + l)%Q).
Proof.
  intros Hne. unfold total_dist. rewrite (hops_snoc path v d Hne), mapM_snoc.
  destruct (mapM (fun uv => get_edge_length G (fst uv) (snd uv)) (hops path))
    as [ls|]; simpl; [|reflexivity].
  destruct (get_edge_length G (last path d) v) as [l|]; simpl; [|reflexivity].
  now rewrite py_sum_snoc.
Qed.

Lemma total_dist_extend_witness :
  total_dist G4 ([1; 2] ++ [3])%Z
  = (t <- total_dist G4 [1; 2]%Z ;;
     l <- get_edge_length G4 (last [1; 2]%Z 0%Z) 3 ;;
     Ok (t + l)%Q).
Proof. apply (total_dist_extend G4 [1; 2]%Z 3 0). discriminate. Defined.

Lemma hop_edge_source (G : Graph) (u v : Node) (a : EdgeAttrs) :
  hop_edge G u v = Ok a ->
  a = no_attrs \/ exists e, In e (edges G) /\ a = e_attrs e.
Proof.
  destruct (filter (joins u v) (edges G)) as [|e rest] eqn:Hf.
  - rewrite (hop_edge_none G u v Hf). intros H. injection H as <-. now left.
  - rewrite (hop_edge_first G u v e rest Hf). intros H. injection H as <-.
    right. exists e. split; [|reflexivity].
    assert (Hin : In e (filter (joins u v) (edges G))) by (rewrite Hf; now left).
    apply filter_In in Hin. tauto.
Qed.

(** When no edge of the graph has a negative length, the total of any
    path is not negative. *)
Theorem total_dist_nonneg (G : Graph) (path : list Node) :
  nonneg_lengths G ->
  exists total, total_dist G path = Ok total /\ (0 <= total)%Q.
Proof.
  intros Hnn. unfold total_dist.
  assert (H : exists ls,
             mapM (fun uv => get_edge_length G (fst uv) (snd uv)) (hops path) = Ok ls /\
             forall x, In x ls -> (0 <= x)%Q).
  { induction (hops path) as [|[u v] l (ls & Hls & Hpos)].
    - exists []. split; [reflexivity|]. intros x [].
    - cbn [mapM fst snd]. rewrite get_edge_length_hop_edge.
      destruct (hop_edge_total G u v) as [a Ha]. rewrite Ha, Hls. cbn [bind].
      exists (get_or (attr_length a) 0%Q :: ls). split; [reflexivity|].
      intros x [<-|Hx]; [|now apply Hpos].
      destruct (hop_edge_source G u v a Ha) as [->|(e & He & ->)].
      + simpl. lra.
      + apply (Hnn e He). }
  destruct H as (ls & Hls & Hpos). rewrite Hls. cbn [bind].
  exists (py_sum ls). split; [reflexivity|]. now apply py_sum_nonneg.
Qed.

Lemma total_dist_nonneg_witness :
  exists total, total_dist G4 [1; 2; 3]%Z = Ok total /\ (0 <= total)%Q.
Proof. apply (total_dist_nonneg G4 [1; 2; 3]%Z). exact G4_nonneg. Defined.

(** ** Where Start is printed, and what a bearing is *)

Lemma classify_turn_not_start (diff : R) : classify_turn diff <> Start.
Proof.
  unfold classify_turn.
  repeat match goal with
         | |- context [Rlt_dec ?a ?b] => destruct (Rlt_dec a b)
         | |- context [Rgt_dec ?a ?b] => destruct (Rgt_dec a b)
         end; discriminate.
Qed.

(** On a path of graph nodes, Start is the instruction of the first step
    and of no other step. *)
Theorem start_is_first_step_only (G : Graph) (path : list Node) :
  on_graph G path ->
  exists steps,
    directions G path = Ok steps /\
    forall k s, nth_error steps k = Some s ->
                (instruction s = Start <-> k = 0%nat).
Proof.
  intros Hg. destruct (directions_total G path Hg) as [steps Hs].
  exists steps. split; [exact Hs|]. intros k s Hk.
  assert (Hlen : List.length steps = List.length (hops path)).
  { pose proof Hs as Hl. unfold directions in Hl. apply mapM_length in Hl.
    rewrite Hl. unfold enumerate1. now rewrite length_combine, length_seq, Nat.min_id. }
  assert (Hlt : (k < List.length (hops path))%nat).
  { rewrite <- Hlen. apply nth_error_Some. congruence. }
  destruct (nth_error (hops path) k) as [[u v]|] eqn:Hh;
    [|apply nth_error_None in Hh; lia].
  apply hops_nth in Hh. destruct Hh as [Hu Hv].
  destruct (directions_nth G path steps k u v Hs Hu Hv) as (s' & Hk' & Hd).
  rewrite Hk in Hk'. injection Hk' as <-.
  destruct k as [|j].
  - destruct (direction_total G path 0 u v Hg Hu Hv) as (s0 & H0 & Hstart).
    rewrite Hd in H0. injection H0 as <-. split; [reflexivity|auto].
  - split; [|discriminate]. intros Hi. exfalso.
    destruct (has_node_lookup G u) as [a Ha]; [eapply on_graph_nth; eauto|].
    destruct (has_node_lookup G v) as [b Hb]; [eapply on_graph_nth; eauto|].
    unfold direction in Hd.
    destruct (hop_edge G u v) as [e|]; cbn [bind] in Hd; [|discriminate].
    rewrite (hop_turn_after_first G path j u v a b Hu Ha Hb) in Hd.
    cbn [bind] in Hd. injection Hd as <-. cbn [instruction] in Hi.
    exact (classify_turn_not_start _ Hi).
Qed.

Lemma start_is_first_step_only_witness :
  exists steps,
    directions G4 [1; 2; 3]%Z = Ok steps /\
    forall k s, nth_error steps k = Some s ->
                (instruction s = Start <-> k = 0%nat).
Proof.
  apply (start_is_first_step_only G4 [1; 2; 3]%Z). repeat constructor.
Defined.

(** A bearing is an angle of [0, 360); it is 0 between two points of
    identical coordinates, where the formula is degenerate, and 90 from a
    point of the equator to the point one degree further east. *)
Theorem bearing_is_compass_angle (a b : NodeData) :
  (0 <= bearing a b < 360)%R /\
  (node_y a = node_y b -> node_x a = node_x b -> bearing a b = 0%R) /\
  (forall lon, bearing (on_equator lon) (on_equator (lon + 1)) = 90%R).
Proof.
  split; [apply bearing_range|]. split; [apply bearing_same_point|].
  apply bearing_due_east.
Qed.
